(** * The label registry of [homeassistant/helpers/label_registry.py]

    A shallow embedding of the [LabelRegistry] class: its two dictionaries
    are finite maps, its methods are programs of a small state-and-exception
    monad, and every call it makes to a collaborator (the store, the event
    bus, the device and entity registries) is appended to a trace. *)

From Stdlib Require Import Ascii String.
From stdpp Require Import gmap strings list fin_maps pretty.

(** ** Strings

    Python's [str] is modelled by [string].  Two functions the module calls
    are not part of it: the builtin [str.casefold] and
    [homeassistant.util.slugify].  Both are taken abstractly, so every general
    statement below holds whatever they compute; [ascii_runtime] at the end
    of the definitions instantiates them on ASCII text for the worked
    examples. *)

Class Runtime := {
  casefold : string → string;
  slugify : string → string
}.

(** [s.replace(old, new)] for a one-character [old]: every occurrence of
    [old] is replaced by [new]. *)
Fixpoint str_replace (old : ascii) (new : string) (s : string) : string :=
  match s with
  | EmptyString => EmptyString
  | String c s' =>
      (if decide (c = old) then new else String c EmptyString)
        +:+ str_replace old new s'
  end.

Definition DATA_REGISTRY : string := "label_registry".
Definition EVENT_LABEL_REGISTRY_UPDATED : string := "label_registry_updated".
Definition STORAGE_KEY : string := "core.label_registry".
Definition STORAGE_VERSION_MAJOR : nat := 1.
Definition SAVE_DELAY : nat := 10.

(** ** Data model *)

Module LabelEntry.
Record t := mk {
  label_id : string;
  name : string;
  normalized_name : string;
  description : option string;
  color : option string;
  icon : option string
}.
End LabelEntry.
Abbreviation LabelEntry := LabelEntry.t.
Import LabelEntry.

Global Instance LabelEntry_eq_dec : EqDecision LabelEntry.
Proof. solve_decision. Defined.

(** The two dictionaries a [LabelRegistry] instance owns.  Its other
    attributes are the collaborators [hass] and [_store], which the methods
    only call (see [Effect]), and [children], which no method reads or
    writes. *)
Record Registry := mkRegistry {
  labels : gmap string LabelEntry;
  _normalized_name_label_idx : gmap string string
}.

Global Instance Registry_eq_dec : EqDecision Registry.
Proof. solve_decision. Defined.

(** Calls that leave the registry. *)
Inductive Effect :=
  | async_delay_save (delay : nat)
  | async_fire (event_type action label_id : string)
  | dr_async_clear_label_id (label_id : string)
  | er_async_clear_label_id (label_id : string).

Global Instance Effect_eq_dec : EqDecision Effect.
Proof. solve_decision. Defined.

(** A call is recorded with the dictionaries as they are when it is made,
    which is what the callee could observe. *)
Record Observed := mkObserved {
  effect : Effect;
  seen : Registry
}.

Record World := mkWorld {
  self : Registry;
  trace : list Observed
}.

(** ** Exceptions and the monad of methods *)

Inductive Exception :=
  | ValueError (msg : string)
  | KeyError (key : string)
  | AttributeError
  | TypeError.

(** [OutOfFuel] is the bounded model of a loop giving up; [_generate_id_fuel]
    shows the only loop of the module never does. *)
Inductive Outcome (A : Type) :=
  | Return (a : A)
  | Raise (e : Exception)
  | OutOfFuel.
Arguments Return {A} a.
Arguments Raise {A} e.
Arguments OutOfFuel {A}.

Definition M (A : Type) : Type := World → Outcome A * World.

Definition ret {A} (a : A) : M A := λ w, (Return a, w).

Definition bind {A B} (m : M A) (k : A → M B) : M B := λ w,
  match m w with
  | (Return a, w') => k a w'
  | (Raise e, w') => (Raise e, w')
  | (OutOfFuel, w') => (OutOfFuel, w')
  end.

Definition raise {A} (e : Exception) : M A := λ w, (Raise e, w).

Global Instance M_ret : MRet M := @ret.
Global Instance M_bind : MBind M := λ A B k m, bind m k.

Definition get_labels : M (gmap string LabelEntry) := λ w, (Return (labels (self w)), w).
Definition get_idx : M (gmap string string) :=
  λ w, (Return (_normalized_name_label_idx (self w)), w).
Definition set_labels (l : gmap string LabelEntry) : M unit := λ w,
  (Return (), mkWorld (mkRegistry l (_normalized_name_label_idx (self w))) (trace w)).
Definition set_idx (i : gmap string string) : M unit := λ w,
  (Return (), mkWorld (mkRegistry (labels (self w)) i) (trace w)).
Definition call (e : Effect) : M unit := λ w,
  (Return (), mkWorld (self w) (trace w ++ [mkObserved e (self w)])).

(** [d[key]], [del d[key]] and [d.pop(key)] raise [KeyError] on an absent
    key. *)
Definition getitem {V} (d : gmap string V) (key : string) : M V :=
  match d !! key with
  | Some v => ret v
  | None => raise (KeyError key)
  end.

Definition delitem {V} (d : gmap string V) (key : string) : M (gmap string V) :=
  match d !! key with
  | Some _ => ret (delete key d)
  | None => raise (KeyError key)
  end.

Definition pop {V} (d : gmap string V) (key : string) : M (V * gmap string V) :=
  match d !! key with
  | Some v => ret (v, delete key d)
  | None => raise (KeyError key)
  end.

(** An argument of [async_update] is either the sentinel [UNDEFINED] or a
    value. *)
Inductive Arg (A : Type) :=
  | UNDEFINED
  | Given (value : A).
Arguments UNDEFINED {A}.
Arguments Given {A} value.

(** The dictionary [changes] of [async_update]: one optional slot for each
    attribute name it can hold. *)
Record Changes := mkChanges {
  ch_color : option (option string);
  ch_description : option (option string);
  ch_icon : option (option string);
  ch_name : option string;
  ch_normalized_name : option string
}.

Global Instance Changes_eq_dec : EqDecision Changes.
Proof. solve_decision. Defined.

Definition no_changes : Changes := mkChanges None None None None None.

(** [dataclasses.replace(old, **changes)]. *)
Definition replace (old : LabelEntry) (changes : Changes) : LabelEntry :=
  {| label_id := label_id old;
     name := default (name old) (ch_name changes);
     normalized_name := default (normalized_name old) (ch_normalized_name changes);
     description := default (description old) (ch_description changes);
     color := default (color old) (ch_color changes);
     icon := default (icon old) (ch_icon changes) |}.

(** One slot of the dict comprehension of [async_update]:
    kept [if value is not UNDEFINED and getattr(old, attr_name) != value]. *)
Definition changed {A} `{EqDecision A} (current : A) (value : Arg A) : option A :=
  match value with
  | UNDEFINED => None
  | Given v => if decide (current ≠ v) then Some v else None
  end.

(** A record of the persisted list: a dictionary from field names to
    [str | None]. *)
Abbreviation StoredLabel := (gmap string (option string)).

(** ** The methods of [LabelRegistry] *)

Section LabelRegistry.
Context `{Runtime}.

Definition normalize_label_name (label_name : string) : string :=
  str_replace " " "" (casefold label_name).

(** [__init__]: both dictionaries start empty. *)
Definition __init__ : Registry := mkRegistry ∅ ∅.

Definition async_get_label (label_id : string) : M (option LabelEntry) :=
  labels ← get_labels;
  mret (labels !! label_id).

Definition async_get_label_by_name (name : string) : M (option LabelEntry) :=
  let normalized_name := normalize_label_name name in
  idx ← get_idx;
  match idx !! normalized_name with
  | None => mret None
  | Some label_id =>
      labels ← get_labels;
      label ← getitem labels label_id;
      mret (Some label)
  end.

(** [self.labels.values()], listed in the order of the finite map; the
    insertion order of the Python dictionary is not kept. *)
Definition async_list_labels : M (list LabelEntry) :=
  labels ← get_labels;
  mret (map_to_list labels).*2.

(** The [while] loop of [_generate_id], run for at most [fuel] tests. *)
Fixpoint _generate_id_loop (fuel : nat) (labels : gmap string LabelEntry)
    (suggestion_base : string) (tries : nat) (suggestion : string) : option string :=
  match fuel with
  | O => None
  | S fuel =>
      if decide (suggestion ∈ dom labels) then
        let tries := tries + 1 in
        let suggestion := suggestion_base +:+ "_" +:+ pretty tries in
        _generate_id_loop fuel labels suggestion_base tries suggestion
      else Some suggestion
  end.

Definition _generate_id (name : string) : M string :=
  let suggestion_base := slugify name in
  labels ← get_labels;
  match _generate_id_loop (S (size labels)) labels suggestion_base 1 suggestion_base with
  | Some suggestion => mret suggestion
  | None => λ w, (OutOfFuel, w)
  end.

Definition async_schedule_save : M unit := call (async_delay_save SAVE_DELAY).

Definition async_create (name : string)
    (color icon description : option string) : M LabelEntry :=
  let normalized_name := normalize_label_name name in
  found ← async_get_label_by_name name;
  if found is Some _ then
    raise (ValueError
      ("The name " +:+ name +:+ " (" +:+ normalized_name +:+ ") is already in use"))
  else
    new_id ← _generate_id name;
    let label := {| color := color; description := description; icon := icon;
                    label_id := new_id; name := name;
                    normalized_name := normalized_name |} in
    labels ← get_labels;
    set_labels (<[label_id label := label]> labels);;
    idx ← get_idx;
    set_idx (<[normalized_name := label_id label]> idx);;
    async_schedule_save;;
    call (async_fire EVENT_LABEL_REGISTRY_UPDATED "create" (label_id label));;
    mret label.

Definition async_get_or_create (name : string) : M LabelEntry :=
  found ← async_get_label_by_name name;
  if found is Some label then mret label
  else async_create name None None None.

Definition async_delete (label_id : string) : M unit :=
  labels ← get_labels;
  label ← getitem labels label_id;
  call (dr_async_clear_label_id label_id);;
  call (er_async_clear_label_id label_id);;
  labels ← get_labels;
  labels ← delitem labels label_id;
  set_labels labels;;
  idx ← get_idx;
  idx ← delitem idx (normalized_name label);
  set_idx idx;;
  call (async_fire EVENT_LABEL_REGISTRY_UPDATED "remove" label_id);;
  async_schedule_save.

Definition async_update (label_id : string)
    (color description icon : Arg (option string)) (name : Arg string) : M LabelEntry :=
  labels ← get_labels;
  old ← getitem labels label_id;
  let changes :=
    {| ch_color := changed (LabelEntry.color old) color;
       ch_description := changed (LabelEntry.description old) description;
       ch_icon := changed (LabelEntry.icon old) icon;
       ch_name := None; ch_normalized_name := None |} in
  '(normalized_name, changes) ←
    match name with
    | Given name =>
        if decide (name ≠ LabelEntry.name old) then
          let normalized_name := normalize_label_name name in
          (if decide (normalized_name ≠ LabelEntry.normalized_name old) then
             found ← async_get_label_by_name name;
             if found is Some _ then
               raise (ValueError
                 ("The name " +:+ name +:+ " (" +:+ normalized_name
                    +:+ ") is already in use"))
             else mret ()
           else mret ());;
          mret (Some normalized_name,
                {| ch_color := ch_color changes;
                   ch_description := ch_description changes;
                   ch_icon := ch_icon changes;
                   ch_name := Some name;
                   ch_normalized_name := Some normalized_name |})
        else mret (None, changes)
    | UNDEFINED => mret (None, changes)
    end;
  if decide (changes = no_changes) then mret old
  else
    let new := replace old changes in
    labels ← get_labels;
    set_labels (<[label_id := new]> labels);;
    (if normalized_name is Some normalized_name then
       idx ← get_idx;
       '(popped, idx) ← pop idx (LabelEntry.normalized_name old);
       set_idx (<[normalized_name := popped]> idx)
     else mret ());;
    async_schedule_save;;
    call (async_fire EVENT_LABEL_REGISTRY_UPDATED "update" label_id);;
    mret new.

(** The body of [for label in data["labels"]] in [async_load]; [labels] is
    the local dictionary being filled, the name index is the instance's.
    [LabelEntry] annotates [name] and [label_id] as [str]: a stored [None]
    for [name] makes [normalize_label_name] raise [AttributeError]; a
    stored [None] for [label_id] has no counterpart among the typed
    entries of this model and is reported as [TypeError]. *)
Fixpoint async_load_loop (records : list StoredLabel)
    (labels : gmap string LabelEntry) : M (gmap string LabelEntry) :=
  match records with
  | [] => mret labels
  | label :: records =>
      stored_name ← getitem label "name";
      name ← (if stored_name is Some name then mret name else raise AttributeError);
      let normalized_name := normalize_label_name name in
      color ← getitem label "color";
      description ← getitem label "description";
      icon ← getitem label "icon";
      stored_id ← getitem label "label_id";
      label_id ← (if stored_id is Some label_id then mret label_id else raise TypeError);
      let labels :=
        <[label_id := {| LabelEntry.color := color;
                         LabelEntry.description := description;
                         LabelEntry.icon := icon;
                         LabelEntry.label_id := label_id;
                         LabelEntry.name := name;
                         LabelEntry.normalized_name := normalized_name |}]> labels in
      idx ← get_idx;
      set_idx (<[normalized_name := label_id]> idx);;
      async_load_loop records labels
  end.

(** [async_load], given what [await self._store.async_load()] returned. *)
Definition async_load (data : option (gmap string (list StoredLabel))) : M unit :=
  labels ←
    match data with
    | Some data =>
        records ← getitem data "labels";
        async_load_loop records ∅
    | None => mret ∅
    end;
  set_labels labels.

(** One record of [_data_to_save]. *)
Definition stored (entry : LabelEntry) : StoredLabel :=
  <["name" := Some (name entry)]>
    (<["label_id" := Some (label_id entry)]>
      (<["icon" := icon entry]>
        (<["description" := description entry]>
          (<["color" := color entry]> ∅)))).

Definition _data_to_save (registry : Registry) : gmap string (list StoredLabel) :=
  {[ "labels" := stored <$> (map_to_list (labels registry)).*2 ]}.

(** The module-level [async_load]: a new [LabelRegistry], then its
    [async_load]; the slot of [hass.data] that holds the instance is not
    modelled. *)
Definition async_load_registry (data : option (gmap string (list StoredLabel)))
    : Outcome unit * World :=
  async_load data (mkWorld __init__ []).

(** ** Sequences of mutations *)

Inductive Op :=
  | Create (name : string) (color icon description : option string)
  | Update (label_id : string) (color description icon : Arg (option string))
      (name : Arg string)
  | Delete (label_id : string).

Definition run_op (op : Op) : M unit :=
  match op with
  | Create name color icon description =>
      async_create name color icon description;; mret ()
  | Update label_id color description icon name =>
      async_update label_id color description icon name;; mret ()
  | Delete label_id => async_delete label_id
  end.

Fixpoint run_ops (ops : list Op) : M unit :=
  match ops with
  | [] => mret ()
  | op :: ops => run_op op;; run_ops ops
  end.

End LabelRegistry.

(** ** An instance on ASCII text *)

Definition ascii_lower (c : ascii) : ascii :=
  let n := N_of_ascii c in
  if (65 <=? n)%N && (n <=? 90)%N then ascii_of_N (n + 32) else c.

(** [str.casefold] on ASCII text: upper-case letters become lower-case, every
    other character is kept. *)
Fixpoint ascii_casefold (s : string) : string :=
  match s with
  | EmptyString => EmptyString
  | String c s' => String (ascii_lower c) (ascii_casefold s')
  end.

Definition ascii_alnum (c : ascii) : bool :=
  let n := N_of_ascii (ascii_lower c) in
  ((97 <=? n)%N && (n <=? 122)%N) || ((48 <=? n)%N && (n <=? 57)%N).

Fixpoint ascii_tokens (current : string) (s : string) : list string :=
  match s with
  | EmptyString => if decide (current = "") then [] else [current]
  | String c s' =>
      if ascii_alnum c then ascii_tokens (current +:+ String (ascii_lower c) "") s'
      else (if decide (current = "") then [] else [current]) ++ ascii_tokens "" s'
  end.

(** Modelled from the spec: [homeassistant.util.slugify] is not among the
    sources; the spec describes it as a lossy transliteration to a lowercase,
    separator-joined token form.  Here: the maximal runs of ASCII letters and
    digits, lower-cased and joined by ["_"]. *)
Definition ascii_slugify (s : string) : string :=
  String.concat "_" (ascii_tokens "" s).

Definition ascii_runtime : Runtime :=
  {| casefold := ascii_casefold; slugify := ascii_slugify |}.

(** The world of a freshly constructed registry. *)
Definition fresh `{Runtime} : World := mkWorld __init__ [].

(** ** The data-model invariants *)

(** Invariants 1 to 3 of the data model: the index points back at every
    entity, both dictionaries have the same number of entries, and normalized
    names are not shared. *)
Record invariants (r : Registry) : Prop := mkInvariants {
  inv_index : ∀ id e,
    labels r !! id = Some e →
    _normalized_name_label_idx r !! normalized_name e = Some id;
  inv_card : size (labels r) = size (_normalized_name_label_idx r);
  inv_unique : ∀ id1 id2 e1 e2,
    labels r !! id1 = Some e1 → labels r !! id2 = Some e2 →
    normalized_name e1 = normalized_name e2 → id1 = id2
}.

(** What every state built by the methods also satisfies: an entity is filed
    under its own [label_id], and its [normalized_name] is the normalization
    of its [name]. *)
Record valid `{Runtime} (r : Registry) : Prop := mkValid {
  valid_invariants : invariants r;
  valid_key : ∀ id e, labels r !! id = Some e → label_id e = id;
  valid_normalized : ∀ id e,
    labels r !! id = Some e → normalized_name e = normalize_label_name (name e)
}.

Section Specification.
Context `{Runtime}.

(** The suggestion the loop of [_generate_id] holds when [tries] is [k]. *)
Definition candidate (suggestion_base : string) (k : nat) : string :=
  if decide (k = 1) then suggestion_base
  else suggestion_base +:+ "_" +:+ pretty k.

(** The id the spec asks of a create: the slug when it is not an id yet,
    otherwise the first of [base_2], [base_3], ... that is not. *)
Definition generated_id (labels : gmap string LabelEntry) (base id : string) : Prop :=
  ((base ∉ dom labels) ∧ id = base) ∨
  (base ∈ dom labels ∧
   ∃ k : nat, 2 ≤ k ∧ id = base +:+ "_" +:+ pretty k ∧ (id ∉ dom labels) ∧
     ∀ j : nat, 2 ≤ j < k → base +:+ "_" +:+ pretty j ∈ dom labels).

(** The [ValueError] of a name that is taken, which the spec calls
    [DuplicateNameError]; its [NotFoundError] is the [KeyError] of the id. *)
Definition already_in_use (name : string) : Exception :=
  ValueError ("The name " +:+ name +:+ " (" +:+ normalize_label_name name
                +:+ ") is already in use").

(** The entry [async_create] builds once the id is known. *)
Definition new_label (new_id name : string) (color icon description : option string)
    : LabelEntry :=
  {| label_id := new_id; name := name;
     normalized_name := normalize_label_name name;
     description := description; color := color; icon := icon |}.

(** The world after [label] was created: both dictionaries extended, then a
    save scheduled and the event fired. *)
Definition created (w : World) (label : LabelEntry) : World :=
  let r := mkRegistry (<[label_id label := label]> (labels (self w)))
             (<[normalized_name label := label_id label]>
                (_normalized_name_label_idx (self w))) in
  mkWorld r (trace w ++
    [mkObserved (async_delay_save SAVE_DELAY) r;
     mkObserved (async_fire EVENT_LABEL_REGISTRY_UPDATED "create" (label_id label)) r]).

(** The world after the entry [label] filed under [id] was deleted: the two
    cleanup calls see the registry as it was, the event and the save see it
    without the entry. *)
Definition deleted (w : World) (id : string) (label : LabelEntry) : World :=
  let r := mkRegistry (delete id (labels (self w)))
             (delete (normalized_name label) (_normalized_name_label_idx (self w))) in
  mkWorld r (trace w ++
    [mkObserved (dr_async_clear_label_id id) (self w);
     mkObserved (er_async_clear_label_id id) (self w);
     mkObserved (async_fire EVENT_LABEL_REGISTRY_UPDATED "remove" id) r;
     mkObserved (async_delay_save SAVE_DELAY) r]).

(** The slots of [changes] filled by the comprehension over [color],
    [description] and [icon]. *)
Definition field_changes (old : LabelEntry)
    (color description icon : Arg (option string)) : Changes :=
  {| ch_color := changed (LabelEntry.color old) color;
     ch_description := changed (LabelEntry.description old) description;
     ch_icon := changed (LabelEntry.icon old) icon;
     ch_name := None; ch_normalized_name := None |}.

(** [changes] once a different [name] was accepted. *)
Definition name_changes (changes : Changes) (name : string) : Changes :=
  {| ch_color := ch_color changes;
     ch_description := ch_description changes;
     ch_icon := ch_icon changes;
     ch_name := Some name;
     ch_normalized_name := Some (normalize_label_name name) |}.

(** The argument [value] is [UNDEFINED] or the value the field already has. *)
Definition keeps {A} (current : A) (value : Arg A) : Prop :=
  match value with
  | UNDEFINED => True
  | Given v => v = current
  end.

(** The world after the entry under [id] was replaced by [new] and the
    index became [idx]. *)
Definition updated (w : World) (id : string) (new : LabelEntry)
    (idx : gmap string string) : World :=
  let r := mkRegistry (<[id := new]> (labels (self w))) idx in
  mkWorld r (trace w ++
    [mkObserved (async_delay_save SAVE_DELAY) r;
     mkObserved (async_fire EVENT_LABEL_REGISTRY_UPDATED "update" id) r]).

(** The end of [async_update] once a different name was accepted: the
    entry is replaced, then the index entry is popped and put back under
    the new normalized name. *)
Definition renamed (w : World) (id : string) (old new : LabelEntry)
    : Outcome LabelEntry * World :=
  match _normalized_name_label_idx (self w) !! normalized_name old with
  | Some popped =>
      (Return new,
       updated w id new
         (<[normalized_name new := popped]>
            (delete (normalized_name old) (_normalized_name_label_idx (self w)))))
  | None =>
      (Raise (KeyError (normalized_name old)),
       mkWorld (mkRegistry (<[id := new]> (labels (self w)))
                  (_normalized_name_label_idx (self w))) (trace w))
  end.

End Specification.

(** ** Worked examples on ASCII text *)

Section Examples.
Local Existing Instance ascii_runtime.

(** A tab, which Rocq's string literals cannot hold. *)
Definition TAB : string := String (ascii_of_nat 9) EmptyString.

Definition foo_label : LabelEntry := new_label "foo" "Foo" None None None.
Definition foo_world : World := (async_create "Foo" None None None fresh).2.

Definition night_label : LabelEntry := new_label "night_mode" "Night Mode" None None None.
Definition night_world : World := (async_create "Night Mode" None None None fresh).2.

Definition night_tab_label : LabelEntry :=
  new_label "night_mode" ("Night" +:+ TAB +:+ "Mode") None None None.
Definition night_tab_world : World :=
  (async_create ("Night" +:+ TAB +:+ "Mode") None None None fresh).2.

Definition work_label : LabelEntry := new_label "work" "Work" None None None.
Definition home_label : LabelEntry := new_label "home" "Home" (Some "red") None None.
Definition work_home_ops : list Op :=
  [Create "Work" None None None; Create "Home" (Some "red") None None].
Definition work_home_world : World := (run_ops work_home_ops fresh).2.

Definition example_ops : list Op :=
  [Create "Work" None None None;
   Create "Home" (Some "red") None None;
   Update "work" (Given (Some "#fff")) UNDEFINED UNDEFINED (Given "Office");
   Create "home!" None None None;
   Delete "home"].

(** Python's [str.isspace] on ASCII. *)
Definition ascii_isspace (c : ascii) : bool :=
  let n := N_of_ascii c in
  ((9 <=? n)%N && (n <=? 13)%N) || ((28 <=? n)%N && (n <=? 32)%N).

(** The reading of the docstring of [normalize_label_name]: case folding and
    the removal of all whitespace. *)
Fixpoint remove_whitespace (s : string) : string :=
  match s with
  | EmptyString => EmptyString
  | String c s' =>
      if ascii_isspace c then remove_whitespace s' else String c (remove_whitespace s')
  end.

End Examples.

(** ** Callers and the module level *)

(** The result of a function that starts with an [assert]. *)
Inductive Asserting (A : Type) :=
  | AssertionError
  | Asserted (a : A).
Arguments AssertionError {A}.
Arguments Asserted {A} a.

Section Callers.
Context `{Runtime}.

(** The value a field has once an argument of [async_update] was applied to
    it. *)
Definition applied {A} (current : A) (value : Arg A) : A :=
  match value with
  | UNDEFINED => current
  | Given v => v
  end.

(** A caller that creates one label per name, in order, with the default
    optional fields. *)
Fixpoint create_all (names : list string) : M (list LabelEntry) :=
  match names with
  | [] => mret []
  | name :: names =>
      label ← async_create name None None None;
      others ← create_all names;
      mret (label :: others)
  end.

(** A caller that runs the mutations one after the other and goes on after
    a call that raised: the exception is caught and dropped, the registry
    stays as the failed call left it. *)
Fixpoint run_all (ops : list Op) (w : World) : World :=
  match ops with
  | [] => w
  | op :: ops => run_all ops (run_op op w).2
  end.


(** The module-level [async_get]: [hass.data[DATA_REGISTRY]].  Of [hass] only
    the dictionary [data] is kept, and of its values only label registries,
    each with the calls it has made. *)
Definition async_get (hass_data : gmap string World) : Outcome World :=
  match hass_data !! DATA_REGISTRY with
  | Some registry => Return registry
  | None => Raise (KeyError DATA_REGISTRY)
  end.

(** The module-level [async_load], with [hass.data]: the assertion, the new
    instance stored under [DATA_REGISTRY], then the instance's [async_load],
    which works on the stored object whether it returns or raises. *)
Definition async_load_module (hass_data : gmap string World)
    (data : option (gmap string (list StoredLabel)))
    : Asserting (Outcome unit * gmap string World) :=
  if decide (DATA_REGISTRY ∈ dom hass_data) then AssertionError
  else
    let '(outcome, registry) := async_load data (mkWorld __init__ []) in
    Asserted (outcome, <[DATA_REGISTRY := registry]> hass_data).

End Callers.

(** * Properties *)

Ltac unfold_monad :=
  unfold getitem, delitem, pop, mbind, mret, M_bind, M_ret, bind, ret, raise,
    get_labels, get_idx, set_labels, set_idx, call in *.

Section Invariants.

Lemma invariants_intro labels idx :
  (∀ id e, labels !! id = Some e → idx !! normalized_name e = Some id) →
  size labels = size idx →
  invariants (mkRegistry labels idx).
Proof.
  intros Hidx Hsize. split; simpl; [done | done |].
  intros id1 id2 e1 e2 H1 H2 Heq.
  apply Hidx in H1, H2. rewrite Heq in H1. congruence.
Qed.

(** With equal cardinalities the index has no key besides the normalized
    names of the entities. *)
Lemma index_onto (labels : gmap string LabelEntry) :
  ∀ idx : gmap string string,
    (∀ id e, labels !! id = Some e → idx !! normalized_name e = Some id) →
    size labels = size idx →
    ∀ k id, idx !! k = Some id →
      ∃ e, labels !! id = Some e ∧ normalized_name e = k.
Proof.
  induction labels as [|i e m Hfresh IH] using map_ind; intros idx Hidx Hsize k id Hk.
  - rewrite map_size_empty in Hsize. symmetry in Hsize.
    apply map_size_empty_inv in Hsize. subst idx. by rewrite lookup_empty in Hk.
  - assert (Hi : idx !! normalized_name e = Some i)
      by (apply Hidx; apply lookup_insert_eq).
    destruct (decide (k = normalized_name e)) as [->|Hne].
    + rewrite Hi in Hk. injection Hk as <-. exists e.
      by rewrite lookup_insert_eq.
    + destruct (IH (delete (normalized_name e) idx)) with (k := k) (id := id)
        as (e' & He' & Hn').
      * intros id' e' He'.
        assert (id' ≠ i) by (intros ->; congruence).
        assert (Hid' : idx !! normalized_name e' = Some id')
          by (apply Hidx; by rewrite lookup_insert_ne).
        rewrite lookup_delete_ne; [done|].
        intros Heq. rewrite Heq in Hi. congruence.
      * rewrite map_size_insert_None in Hsize by done.
        rewrite map_size_delete_Some by (by eexists). lia.
      * by rewrite lookup_delete_ne.
      * exists e'. split; [|done].
        rewrite lookup_insert_ne; [done|]. intros ->. congruence.
Qed.

Lemma invariants_onto r k id :
  invariants r → _normalized_name_label_idx r !! k = Some id →
  ∃ e, labels r !! id = Some e ∧ normalized_name e = k.
Proof. intros [Hidx Hsize _]. by apply index_onto. Qed.

Lemma invariants_init : invariants (mkRegistry ∅ ∅).
Proof. apply invariants_intro; [intros ??; by rewrite lookup_empty | done]. Qed.

(** A new entity under an unused id and an unused normalized name. *)
Lemma invariants_insert labels idx id e :
  invariants (mkRegistry labels idx) →
  labels !! id = None → idx !! normalized_name e = None →
  invariants (mkRegistry (<[id := e]> labels) (<[normalized_name e := id]> idx)).
Proof.
  intros [Hidx Hsize _] Hid Hn. simpl in *. apply invariants_intro.
  - intros id' e' He'. destruct (decide (id' = id)) as [->|Hne].
    + rewrite lookup_insert_eq in He'. injection He' as <-. apply lookup_insert_eq.
    + rewrite lookup_insert_ne in He' by done. apply Hidx in He'.
      rewrite lookup_insert_ne; [done|]. intros Heq. congruence.
  - rewrite !map_size_insert_None by done. lia.
Qed.

(** An entity and its index entry removed. *)
Lemma invariants_delete labels idx id e :
  invariants (mkRegistry labels idx) → labels !! id = Some e →
  invariants (mkRegistry (delete id labels) (delete (normalized_name e) idx)).
Proof.
  intros [Hidx Hsize Huniq] Hid. simpl in *. apply invariants_intro.
  - intros id' e' He'. destruct (decide (id' = id)) as [->|Hne].
    + by rewrite lookup_delete_eq in He'.
    + rewrite lookup_delete_ne in He' by done.
      rewrite lookup_delete_ne; [by apply Hidx|].
      intros Heq. apply Hne. symmetry. by eapply Huniq.
  - rewrite !map_size_delete_Some; [lia | eexists; by apply Hidx | by eexists].
Qed.

(** An entity replaced by one with the same normalized name. *)
Lemma invariants_replace labels idx id old new :
  invariants (mkRegistry labels idx) → labels !! id = Some old →
  normalized_name new = normalized_name old →
  invariants (mkRegistry (<[id := new]> labels) idx).
Proof.
  intros [Hidx Hsize _] Hid Hn. simpl in *. apply invariants_intro.
  - intros id' e' He'. destruct (decide (id' = id)) as [->|Hne].
    + rewrite lookup_insert_eq in He'. injection He' as <-. rewrite Hn. by apply Hidx.
    + rewrite lookup_insert_ne in He' by done. by apply Hidx.
  - rewrite map_size_insert_Some by (by eexists). done.
Qed.

(** An entity renamed to an unused normalized name. *)
Lemma invariants_rename labels idx id old new :
  invariants (mkRegistry labels idx) → labels !! id = Some old →
  idx !! normalized_name new = None →
  invariants (mkRegistry (<[id := new]> labels)
                (<[normalized_name new := id]> (delete (normalized_name old) idx))).
Proof.
  intros [Hidx Hsize Huniq] Hid Hn. simpl in *.
  assert (Hold : idx !! normalized_name old = Some id) by by apply Hidx.
  apply invariants_intro.
  - intros id' e' He'. destruct (decide (id' = id)) as [->|Hne].
    + rewrite lookup_insert_eq in He'. injection He' as <-. apply lookup_insert_eq.
    + rewrite lookup_insert_ne in He' by done.
      rewrite lookup_insert_ne.
      * rewrite lookup_delete_ne; [by apply Hidx|].
        intros Heq. apply Hne. symmetry. by eapply Huniq.
      * intros Heq. apply Hidx in He'. congruence.
  - rewrite map_size_insert_Some by (by eexists).
    rewrite map_size_insert_None by (rewrite lookup_delete_ne; [done | congruence]).
    rewrite map_size_delete_Some by (by eexists).
    assert (size idx ≠ 0); [|lia].
    intros Hz. apply map_size_empty_inv in Hz. subst idx. by rewrite lookup_empty in Hold.
Qed.

End Invariants.

(** ** Identifier generation *)

Section Identifiers.
Context `{Runtime}.
Variable labels : gmap string LabelEntry.
Variable suggestion_base : string.

Lemma candidate_succ (k : nat) : 1 ≤ k →
  suggestion_base +:+ "_" +:+ pretty (k + 1) = candidate suggestion_base (k + 1).
Proof. intros Hk. unfold candidate. case_decide; [lia | done]. Qed.

Lemma length_append (s1 s2 : string) :
  String.length (s1 +:+ s2) = String.length s1 + String.length s2.
Proof. induction s1 as [|c s1 IH]; simpl; [done | by rewrite IH]. Qed.

Lemma candidate_inj (k j : nat) : candidate suggestion_base k = candidate suggestion_base j → 1 ≤ k → 1 ≤ j → k = j.
Proof.
  unfold candidate. intros Heq Hk Hj.
  repeat case_decide; subst; try done.
  - apply (f_equal String.length) in Heq. rewrite !length_append in Heq.
    simpl in Heq. lia.
  - apply (f_equal String.length) in Heq. rewrite !length_append in Heq.
    simpl in Heq. lia.
  - apply String.app_inj in Heq. apply String.app_inj in Heq.
    by apply (inj pretty) in Heq.
Qed.

(** The loop started at [tries] stops at the first candidate suggestion_base from there on
    that is not an id, provided the fuel exceeds the number of ids that
    can still be met. *)
Lemma _generate_id_loop_first fuel :
  ∀ (tries : nat) (X : gset string),
    1 ≤ tries →
    (∀ k : nat, tries ≤ k → candidate suggestion_base k ∈ dom labels → candidate suggestion_base k ∈ X) →
    size X < fuel →
    ∃ k : nat, tries ≤ k ∧
      _generate_id_loop fuel labels suggestion_base tries (candidate suggestion_base tries)
        = Some (candidate suggestion_base k) ∧
      (candidate suggestion_base k ∉ dom labels) ∧
      (∀ j : nat, tries ≤ j < k → candidate suggestion_base j ∈ dom labels).
Proof.
  induction fuel as [|fuel IH]; intros tries X Htries HX Hsize; [lia|].
  simpl. case_decide as Hin.
  - rewrite candidate_succ by done.
    destruct (IH (tries + 1) (X ∖ {[candidate suggestion_base tries]})) as (k & Hk & Hrun & Hout & Hbelow).
    + lia.
    + intros k Hk Hdom. apply elem_of_difference. split; [apply HX; [lia | done]|].
      rewrite elem_of_singleton. intros Heq. apply candidate_inj in Heq; lia.
    + assert (candidate suggestion_base tries ∈ X) by (apply HX; [lia | done]).
      rewrite size_difference by set_solver. rewrite size_singleton.
      assert (size X ≠ 0); [|lia].
      intros Hz. apply size_empty_inv in Hz. set_solver.
    + exists k. split_and!; [lia | done | done |].
      intros j Hj. destruct (decide (j = tries)) as [->|]; [done|].
      apply Hbelow. lia.
  - exists tries. split_and!; [lia | done | done |]. intros j Hj. lia.
Qed.

(** The fuel [_generate_id] gives its loop is enough. *)
Lemma _generate_id_fuel :
  ∃ k : nat, 1 ≤ k ∧
    _generate_id_loop (S (size labels)) labels suggestion_base 1 suggestion_base
      = Some (candidate suggestion_base k) ∧
    (candidate suggestion_base k ∉ dom labels) ∧
    (∀ j : nat, 1 ≤ j < k → candidate suggestion_base j ∈ dom labels).
Proof.
  apply (_generate_id_loop_first (S (size labels)) 1 (dom labels)).
  - lia.
  - done.
  - rewrite size_dom. lia.
Qed.

End Identifiers.

(** ** What the methods compute *)

Section Execution.
Context `{Runtime}.

Lemma async_get_label_by_name_run name w :
  async_get_label_by_name name w =
    (match _normalized_name_label_idx (self w) !! normalize_label_name name with
     | None => Return None
     | Some id =>
         match labels (self w) !! id with
         | Some label => Return (Some label)
         | None => Raise (KeyError id)
         end
     end, w).
Proof.
  unfold async_get_label_by_name. unfold_monad. simpl.
  destruct (_ !! normalize_label_name name) as [id|]; [|done].
  simpl. by destruct (labels (self w) !! id).
Qed.

Lemma _generate_id_run name w :
  ∃ k : nat, 1 ≤ k ∧
    _generate_id name w = (Return (candidate (slugify name) k), w) ∧
    (candidate (slugify name) k ∉ dom (labels (self w))) ∧
    (∀ j : nat, 1 ≤ j < k → candidate (slugify name) j ∈ dom (labels (self w))).
Proof.
  destruct (_generate_id_fuel (labels (self w)) (slugify name))
    as (k & Hk & Hrun & Hout & Hbelow).
  exists k. split_and!; try done.
  unfold _generate_id. unfold_monad. cbv beta iota. by rewrite Hrun.
Qed.

Lemma async_create_duplicate name color icon description w id label :
  _normalized_name_label_idx (self w) !! normalize_label_name name = Some id →
  labels (self w) !! id = Some label →
  async_create name color icon description w = (Raise (already_in_use name), w).
Proof.
  intros Hidx Hlabel. unfold async_create. unfold mbind, M_bind, bind.
  rewrite async_get_label_by_name_run, Hidx, Hlabel. done.
Qed.

Lemma async_create_dangling name color icon description w id :
  _normalized_name_label_idx (self w) !! normalize_label_name name = Some id →
  labels (self w) !! id = None →
  async_create name color icon description w = (Raise (KeyError id), w).
Proof.
  intros Hidx Hlabel. unfold async_create. unfold mbind, M_bind, bind.
  rewrite async_get_label_by_name_run, Hidx, Hlabel. done.
Qed.

Lemma async_create_fresh name color icon description w :
  _normalized_name_label_idx (self w) !! normalize_label_name name = None →
  ∃ k : nat, 1 ≤ k ∧
    (candidate (slugify name) k ∉ dom (labels (self w))) ∧
    (∀ j : nat, 1 ≤ j < k → candidate (slugify name) j ∈ dom (labels (self w))) ∧
    let label := new_label (candidate (slugify name) k) name color icon description in
    async_create name color icon description w = (Return label, created w label).
Proof.
  intros Hidx. destruct (_generate_id_run name w) as (k & Hk & Hrun & Hout & Hbelow).
  exists k. split_and!; try done.
  unfold async_create. unfold mbind, M_bind, bind.
  rewrite async_get_label_by_name_run, Hidx. cbv beta iota. rewrite Hrun.
  unfold_monad. simpl. unfold created, new_label. simpl. by rewrite <- app_assoc.
Qed.

(** Every way [async_create] can end. *)
Lemma async_create_cases name color icon description w :
  (∃ id, _normalized_name_label_idx (self w) !! normalize_label_name name = Some id ∧
     is_Some (labels (self w) !! id) ∧
     async_create name color icon description w = (Raise (already_in_use name), w)) ∨
  (∃ id, _normalized_name_label_idx (self w) !! normalize_label_name name = Some id ∧
     labels (self w) !! id = None ∧
     async_create name color icon description w = (Raise (KeyError id), w)) ∨
  (_normalized_name_label_idx (self w) !! normalize_label_name name = None ∧
   ∃ k : nat, 1 ≤ k ∧
     (candidate (slugify name) k ∉ dom (labels (self w))) ∧
     (∀ j : nat, 1 ≤ j < k → candidate (slugify name) j ∈ dom (labels (self w))) ∧
     let label := new_label (candidate (slugify name) k) name color icon description in
     async_create name color icon description w = (Return label, created w label)).
Proof.
  destruct (_normalized_name_label_idx (self w) !! normalize_label_name name)
    as [id|] eqn:Hidx.
  - destruct (labels (self w) !! id) as [label|] eqn:Hlabel.
    + left. exists id. split_and!; [done | by eexists |].
      by eapply async_create_duplicate.
    + right; left. exists id. split_and!; [done | done |].
      by eapply async_create_dangling.
  - right; right. split; [done|]. by apply async_create_fresh.
Qed.

Lemma async_delete_absent id w :
  labels (self w) !! id = None → async_delete id w = (Raise (KeyError id), w).
Proof. intros Hid. unfold async_delete. unfold_monad. simpl. by rewrite Hid. Qed.

Lemma async_delete_present id label w :
  labels (self w) !! id = Some label →
  is_Some (_normalized_name_label_idx (self w) !! normalized_name label) →
  async_delete id w = (Return (), deleted w id label).
Proof.
  intros Hid [v Hv]. unfold async_delete, async_schedule_save. unfold_monad. simpl.
  rewrite Hid. simpl. rewrite Hid. simpl. rewrite Hv. simpl.
  unfold deleted. simpl. by rewrite <- !app_assoc.
Qed.

Lemma async_update_absent id color description icon name w :
  labels (self w) !! id = None →
  async_update id color description icon name w = (Raise (KeyError id), w).
Proof. intros Hid. unfold async_update. unfold_monad. simpl. by rewrite Hid. Qed.

Lemma async_update_same_name id old color description icon name w :
  labels (self w) !! id = Some old → keeps (LabelEntry.name old) name →
  let changes := field_changes old color description icon in
  async_update id color description icon name w =
    if decide (changes = no_changes) then (Return old, w)
    else (Return (replace old changes),
          updated w id (replace old changes) (_normalized_name_label_idx (self w))).
Proof.
  intros Hid Hname changes. unfold async_update, async_schedule_save.
  unfold_monad. simpl. rewrite Hid. simpl.
  fold (field_changes old color description icon). fold changes.
  destruct name as [|n]; simpl in *.
  - case_decide; [done|]. unfold updated. simpl. by rewrite <- !app_assoc.
  - rewrite (decide_False (P := n ≠ LabelEntry.name old)) by tauto.
    destruct (decide (changes = no_changes)); [done|].
    unfold updated. simpl. by rewrite <- !app_assoc.
Qed.

Lemma async_update_other_name id old color description icon n w :
  labels (self w) !! id = Some old → n ≠ LabelEntry.name old →
  let new := replace old (name_changes (field_changes old color description icon) n) in
  async_update id color description icon (Given n) w =
    if decide (normalize_label_name n ≠ normalized_name old) then
      match _normalized_name_label_idx (self w) !! normalize_label_name n with
      | Some other =>
          match labels (self w) !! other with
          | Some _ => (Raise (already_in_use n), w)
          | None => (Raise (KeyError other), w)
          end
      | None => renamed w id old new
      end
    else renamed w id old new.
Proof.
  intros Hid Hname new.
  unfold async_update, async_get_label_by_name, async_schedule_save, renamed, updated.
  unfold_monad. simpl. rewrite Hid. simpl.
  rewrite (decide_True (P := n ≠ LabelEntry.name old)) by done.
  fold (field_changes old color description icon).
  assert (Hch : name_changes (field_changes old color description icon) n ≠ no_changes)
    by done.
  destruct (decide (normalize_label_name n ≠ normalized_name old)); simpl.
  - destruct (_normalized_name_label_idx (self w) !! normalize_label_name n)
      as [other|]; simpl; [destruct (labels (self w) !! other); done|].
    rewrite decide_False by done. simpl.
    destruct (_normalized_name_label_idx (self w) !! normalized_name old); simpl;
      [by rewrite <- app_assoc | done].
  - rewrite decide_False by done. simpl.
    destruct (_normalized_name_label_idx (self w) !! normalized_name old); simpl;
      [by rewrite <- app_assoc | done].
Qed.

End Execution.

(** ** The invariants along the mutations *)

Section Preservation.
Context `{Runtime}.

Lemma async_create_invariants name color icon description w :
  invariants (self w) →
  invariants (self (async_create name color icon description w).2).
Proof.
  intros Hinv.
  destruct (async_create_cases name color icon description w)
    as [(id & _ & _ & ->)|[(id & _ & _ & ->)|(Hidx & k & _ & Hout & _ & ->)]];
    [done | done |].
  destruct w as [[labels idx] trace]. simpl in *.
  apply (invariants_insert labels idx _ (new_label _ name color icon description));
    [done | by apply not_elem_of_dom | done].
Qed.

Lemma async_delete_invariants id w :
  invariants (self w) → invariants (self (async_delete id w).2).
Proof.
  intros Hinv. destruct (labels (self w) !! id) as [label|] eqn:Hid.
  - rewrite (async_delete_present id label) by (eauto using inv_index).
    destruct w as [[labels idx] trace]. simpl in *. by apply invariants_delete.
  - by rewrite async_delete_absent.
Qed.

(** In a state with the invariants an accepted rename pops the id itself. *)
Lemma renamed_invariants id old new w :
  invariants (self w) → labels (self w) !! id = Some old →
  renamed w id old new =
    (Return new,
     updated w id new
       (<[normalized_name new := id]>
          (delete (normalized_name old) (_normalized_name_label_idx (self w))))).
Proof.
  intros Hinv Hid. unfold renamed. by rewrite (inv_index _ Hinv id old Hid).
Qed.

Lemma async_update_invariants id color description icon name w :
  invariants (self w) →
  invariants (self (async_update id color description icon name w).2).
Proof.
  intros Hinv. destruct (labels (self w) !! id) as [old|] eqn:Hid;
    [|by rewrite async_update_absent].
  assert (Hsame : keeps (LabelEntry.name old) name →
    invariants (self (async_update id color description icon name w).2)).
  { intros Hkeep. rewrite (async_update_same_name id old) by done.
    case_decide; [done|]. destruct w as [[labels idx] trace]. simpl in *.
    by eapply invariants_replace. }
  destruct name as [|n]; [by apply Hsame|].
  destruct (decide (n = LabelEntry.name old)) as [Hn|Hn]; [by apply Hsame|].
  rewrite (async_update_other_name id old) by done.
  case_decide as Hnn.
  - destruct (_normalized_name_label_idx (self w) !! normalize_label_name n)
      as [other|] eqn:Hother; [by destruct (labels (self w) !! other)|].
    rewrite renamed_invariants by done.
    destruct w as [[labels idx] trace]. simpl in *.
    by apply (invariants_rename labels idx id old
                (replace old (name_changes (field_changes old color description icon) n))).
  - rewrite renamed_invariants by done.
    destruct w as [[labels idx] trace]. simpl in *.
    rewrite Hnn, insert_delete_eq.
    rewrite (insert_id idx (normalized_name old) id)
      by (by apply (inv_index _ Hinv id old)).
    by eapply invariants_replace.
Qed.

Lemma run_op_invariants op w :
  invariants (self w) → invariants (self (run_op op w).2).
Proof.
  intros Hinv. destruct op as [name color icon description
    | id color description icon name | id]; simpl.
  - pose proof (async_create_invariants name color icon description w Hinv) as Hc.
    unfold_monad. by destruct (async_create _ _ _ _ w) as [[?| |] ?].
  - pose proof (async_update_invariants id color description icon name w Hinv) as Hu.
    unfold_monad. by destruct (async_update _ _ _ _ _ w) as [[?| |] ?].
  - by apply async_delete_invariants.
Qed.

Lemma run_ops_invariants ops :
  ∀ w, invariants (self w) → invariants (self (run_ops ops w).2).
Proof.
  induction ops as [|op ops IH]; intros w Hinv; [done|].
  simpl. pose proof (run_op_invariants op w Hinv) as Hop.
  unfold_monad. destruct (run_op op w) as [[[]| |] w1]; simpl in *; [|done|done].
  by apply IH.
Qed.

(** C1. From a registry state with the data-model invariants, any sequence of
    create, update and delete operations that all return without error ends
    in a state with the invariants: every entity's normalized name is mapped
    to its id by the name index, the entities map and the name index have
    the same number of entries, and no two entities share a normalized
    name. *)
Theorem invariants_preserved (ops : list Op) (w w' : World) :
  invariants (self w) →
  run_ops ops w = (Return (), w') →
  (∀ id e, labels (self w') !! id = Some e →
     _normalized_name_label_idx (self w') !! normalized_name e = Some id) ∧
  size (labels (self w')) = size (_normalized_name_label_idx (self w')) ∧
  (∀ id1 id2 e1 e2,
     labels (self w') !! id1 = Some e1 → labels (self w') !! id2 = Some e2 →
     normalized_name e1 = normalized_name e2 → id1 = id2).
Proof.
  intros Hinv Hrun. pose proof (run_ops_invariants ops w Hinv) as Hinv'.
  rewrite Hrun in Hinv'. by destruct Hinv'.
Qed.

End Preservation.

(** ** Validity along the mutations *)

Section Validity.
Context `{Runtime}.

Lemma valid_init : valid __init__.
Proof.
  split; [apply invariants_init | |]; intros id e He; simpl in He;
    by rewrite lookup_empty in He.
Qed.

(** An entry that is filed under its [label_id] and carries the normalization
    of its name can be put in place of any other. *)
Lemma valid_insert_entry r r' id e :
  valid r → invariants r' → labels r' = <[id := e]> (labels r) →
  label_id e = id → normalized_name e = normalize_label_name (name e) →
  valid r'.
Proof.
  intros [_ Hkey Hnorm] Hinv' Hlabels Hid Hn. split; [done | |];
    intros id' e'; rewrite Hlabels; intros He';
    (destruct (decide (id' = id)) as [->|Hne];
     [rewrite lookup_insert_eq in He'; by injection He' as <-
     |rewrite lookup_insert_ne in He' by done; eauto]).
Qed.

Lemma valid_delete_entry r r' id :
  valid r → invariants r' → labels r' = delete id (labels r) → valid r'.
Proof.
  intros [_ Hkey Hnorm] Hinv' Hlabels. split; [done | |];
    intros id' e'; rewrite Hlabels; intros He';
    apply lookup_delete_Some in He' as [_ He']; eauto.
Qed.

Lemma async_create_valid name color icon description w :
  valid (self w) → valid (self (async_create name color icon description w).2).
Proof.
  intros Hv.
  pose proof (async_create_invariants name color icon description w
                (valid_invariants _ Hv)) as Hinv'.
  destruct (async_create_cases name color icon description w)
    as [(id & _ & _ & Hrun)|[(id & _ & _ & Hrun)|(Hidx & k & _ & Hout & _ & Hrun)]];
    rewrite Hrun in *; [done | done |].
  by eapply valid_insert_entry.
Qed.

Lemma async_delete_valid id w :
  valid (self w) → valid (self (async_delete id w).2).
Proof.
  intros Hv.
  pose proof (async_delete_invariants id w (valid_invariants _ Hv)) as Hinv'.
  destruct (labels (self w) !! id) as [label|] eqn:Hid.
  - rewrite (async_delete_present id label) in *
      by (eauto using inv_index, valid_invariants).
    by eapply valid_delete_entry.
  - by rewrite async_delete_absent.
Qed.

Lemma async_update_valid id color description icon name w :
  valid (self w) → valid (self (async_update id color description icon name w).2).
Proof.
  intros Hv.
  pose proof (async_update_invariants id color description icon name w
                (valid_invariants _ Hv)) as Hinv'.
  destruct (labels (self w) !! id) as [old|] eqn:Hid;
    [|by rewrite async_update_absent].
  pose proof (valid_key _ Hv id old Hid) as Hkey.
  pose proof (valid_normalized _ Hv id old Hid) as Hnorm.
  assert (Hsame : keeps (LabelEntry.name old) name →
    valid (self (async_update id color description icon name w).2)).
  { intros Hkeep. rewrite (async_update_same_name id old) in * by done.
    case_decide; [done|]. by eapply valid_insert_entry. }
  destruct name as [|n]; [by apply Hsame|].
  destruct (decide (n = LabelEntry.name old)) as [Hn|Hn]; [by apply Hsame|].
  rewrite (async_update_other_name id old) in * by done.
  rewrite renamed_invariants in * by (done || by apply valid_invariants).
  case_decide as Hnn.
  - destruct (_normalized_name_label_idx (self w) !! normalize_label_name n)
      as [other|] eqn:Hother; [by destruct (labels (self w) !! other)|].
    by eapply valid_insert_entry.
  - by eapply valid_insert_entry.
Qed.

Lemma run_op_valid op w : valid (self w) → valid (self (run_op op w).2).
Proof.
  intros Hv. destruct op as [name color icon description
    | id color description icon name | id]; simpl.
  - pose proof (async_create_valid name color icon description w Hv) as Hc.
    unfold_monad. by destruct (async_create _ _ _ _ w) as [[?| |] ?].
  - pose proof (async_update_valid id color description icon name w Hv) as Hu.
    unfold_monad. by destruct (async_update _ _ _ _ _ w) as [[?| |] ?].
  - by apply async_delete_valid.
Qed.

(** Whatever sequence of mutations is run on a new registry, and however
    each of them ends, the state is valid. *)
Lemma run_ops_valid ops : ∀ w, valid (self w) → valid (self (run_ops ops w).2).
Proof.
  induction ops as [|op ops IH]; intros w Hv; [done|].
  simpl. pose proof (run_op_valid op w Hv) as Hop.
  unfold_monad. destruct (run_op op w) as [[[]| |] w1]; simpl in *; [|done|done].
  by apply IH.
Qed.

End Validity.

(** ** Creation *)

Section Creation.
Context `{Runtime}.

Lemma candidate_one base : candidate base 1 = base.
Proof. done. Qed.

Lemma candidate_from_two base (k : nat) :
  2 ≤ k → candidate base k = base +:+ "_" +:+ pretty k.
Proof. intros Hk. unfold candidate. case_decide; [lia | done]. Qed.

(** The first candidate that is not an id is the id the spec asks for, and
    nothing else is. *)
Lemma first_candidate_generated labels base (k : nat) :
  1 ≤ k → candidate base k ∉ dom labels →
  (∀ j : nat, 1 ≤ j < k → candidate base j ∈ dom labels) →
  generated_id labels base (candidate base k) ∧
  ∀ id, generated_id labels base id → id = candidate base k.
Proof.
  intros Hk Hout Hbelow. destruct (decide (k = 1)) as [->|Hk1].
  - rewrite candidate_one in *. split; [by left|].
    intros id [[_ ->]|[Hin _]]; done.
  - assert (Hbase : base ∈ dom labels).
    { rewrite <- (candidate_one base). apply Hbelow. lia. }
    split.
    + right. split; [done|]. exists k. split_and!; [lia | | done |].
      * apply candidate_from_two. lia.
      * intros j Hj. rewrite <- candidate_from_two by lia. apply Hbelow. lia.
    + intros id [[Hnot _]|(_ & k' & Hk' & -> & Hout' & Hbelow')]; [done|].
      rewrite <- candidate_from_two in * by lia.
      f_equal. destruct (decide (k' = k)) as [|Hne]; [done|]. exfalso.
      destruct (decide (k' < k)).
      * apply Hout'. apply Hbelow. lia.
      * apply Hout. rewrite candidate_from_two by lia. apply Hbelow'. lia.
Qed.

(** C2. In a registry state with the invariants, creating under a name whose
    normalized form is the normalized name of an existing entity raises the
    [ValueError] of a duplicate name (the spec's DuplicateNameError) and
    changes nothing; so, as case folding identifies "Foo" and "foo", a
    create("foo") that follows a successful create("Foo") fails. *)
Theorem create_duplicate_name_fails (w : World) :
  invariants (self w) →
  (∀ name color icon description id e,
     labels (self w) !! id = Some e →
     normalized_name e = normalize_label_name name →
     async_create name color icon description w = (Raise (already_in_use name), w)) ∧
  (∀ color icon description label w' color' icon' description',
     casefold "Foo" = casefold "foo" →
     async_create "Foo" color icon description w = (Return label, w') →
     async_create "foo" color' icon' description' w'
       = (Raise (already_in_use "foo"), w')).
Proof.
  intros Hinv. split.
  - intros name color icon description id e He Hn.
    eapply async_create_duplicate; [|done]. rewrite <- Hn. by apply inv_index.
  - intros color icon description label w' color' icon' description' Hfold Hrun.
    destruct (async_create_cases "Foo" color icon description w)
      as [(id & _ & _ & Hc)|[(id & _ & _ & Hc)|(_ & k & _ & _ & _ & Hc)]];
      rewrite Hc in Hrun; [done | done |].
    injection Hrun as <- <-.
    eapply async_create_duplicate; simpl.
    + unfold normalize_label_name. rewrite <- Hfold. apply lookup_insert_eq.
    + apply lookup_insert_eq.
Qed.

(** C3. A create that passes the duplicate-name check returns, and the id of
    the entity it returns is the slug of the name when that is not yet an id
    of the registry, and otherwise the first of base_2, base_3, ... that is
    not; this id is not an id of the registry before the call, and it is the
    only one fitting the description, so the state and the name determine
    it. *)
Theorem generated_id_first_unused (w : World) name color icon description :
  _normalized_name_label_idx (self w) !! normalize_label_name name = None →
  ∃ label w',
    async_create name color icon description w = (Return label, w') ∧
    generated_id (labels (self w)) (slugify name) (label_id label) ∧
    (label_id label ∉ dom (labels (self w))) ∧
    labels (self w') !! label_id label = Some label ∧
    ∀ id, generated_id (labels (self w)) (slugify name) id → id = label_id label.
Proof.
  intros Hidx.
  destruct (async_create_fresh name color icon description w Hidx)
    as (k & Hk & Hout & Hbelow & Hrun).
  destruct (first_candidate_generated (labels (self w)) (slugify name) k)
    as [Hgen Honly]; [done..|].
  eexists _, _. split; [exact Hrun|]. simpl.
  split_and!; [done | done | apply lookup_insert_eq | done].
Qed.

End Creation.

(** ** Updates *)

Section Updates.
Context `{Runtime}.

Lemma changed_keeps {A} `{EqDecision A} (current : A) (value : Arg A) :
  keeps current value → changed current value = None.
Proof.
  destruct value as [|v]; simpl; [done|]. intros ->. by rewrite decide_False by tauto.
Qed.

(** C4. For an existing id, an update in which every specified field is given
    the value it already has, and so also an update that specifies no field,
    returns the existing entity and leaves the world as it is: both
    dictionaries and the trace of calls (no save scheduled, no event fired)
    are unchanged. *)
Theorem update_without_change_is_noop (w : World) id old
    color description icon name :
  labels (self w) !! id = Some old →
  keeps (LabelEntry.color old) color →
  keeps (LabelEntry.description old) description →
  keeps (LabelEntry.icon old) icon →
  keeps (LabelEntry.name old) name →
  async_update id color description icon name w = (Return old, w) ∧
  async_update id UNDEFINED UNDEFINED UNDEFINED UNDEFINED w = (Return old, w).
Proof.
  intros Hid Hc Hd Hi Hn. split.
  - rewrite (async_update_same_name id old) by done.
    unfold field_changes. rewrite !changed_keeps by done. done.
  - by rewrite (async_update_same_name id old).
Qed.

(** C9. For an id that is not in the entities map, update and delete both
    raise the [KeyError] of that id (the spec's NotFoundError). *)
Theorem unknown_id_not_found (w : World) id :
  labels (self w) !! id = None →
  (∀ color description icon name,
     async_update id color description icon name w = (Raise (KeyError id), w)) ∧
  async_delete id w = (Raise (KeyError id), w).
Proof.
  intros Hid. split.
  - intros. by apply async_update_absent.
  - by apply async_delete_absent.
Qed.

(** Every way [async_update] can raise in a state with the invariants. *)
Lemma async_update_raises (w : World) id color description icon name e w' :
  invariants (self w) →
  async_update id color description icon name w = (Raise e, w') →
  w' = w ∧
  ((e = KeyError id ∧ labels (self w) !! id = None) ∨
   (∃ old n other label,
      labels (self w) !! id = Some old ∧ name = Given n ∧
      normalize_label_name n ≠ normalized_name old ∧
      _normalized_name_label_idx (self w) !! normalize_label_name n = Some other ∧
      labels (self w) !! other = Some label ∧
      e = already_in_use n)).
Proof.
  intros Hinv Hrun. destruct (labels (self w) !! id) as [old|] eqn:Hid.
  - assert (Hsame : keeps (LabelEntry.name old) name → False).
    { intros Hkeep. rewrite (async_update_same_name id old) in Hrun by done.
      by case_decide. }
    destruct name as [|n]; [by destruct Hsame|].
    destruct (decide (n = LabelEntry.name old)) as [Hn|Hn]; [by destruct Hsame|].
    rewrite (async_update_other_name id old) in Hrun by done.
    rewrite renamed_invariants in Hrun by done.
    case_decide as Hnn; [|done].
    destruct (_normalized_name_label_idx (self w) !! normalize_label_name n)
      as [other|] eqn:Hother; [|done].
    destruct (invariants_onto _ _ _ Hinv Hother) as (label & Hlabel & _).
    rewrite Hlabel in Hrun. injection Hrun as <- <-.
    split; [done|]. right. by exists old, n, other, label.
  - rewrite async_update_absent in Hrun by done. injection Hrun as <- <-.
    split; [done|]. by left.
Qed.

(** C10. In a registry state with the invariants, a create, update or delete
    that raises leaves the world exactly as it was: the entities map, the
    name index and the trace of calls are unchanged, so no event is fired, no
    save is scheduled and no cleanup call is made; and what is raised is the
    error of a duplicate name or of an unknown id. *)
Theorem failure_leaves_world_unchanged (w : World) :
  invariants (self w) →
  (∀ name color icon description e w',
     async_create name color icon description w = (Raise e, w') →
     w' = w ∧ e = already_in_use name) ∧
  (∀ id color description icon name e w',
     async_update id color description icon name w = (Raise e, w') →
     w' = w ∧
     ((e = KeyError id ∧ labels (self w) !! id = None) ∨
      (∃ n, name = Given n ∧ e = already_in_use n))) ∧
  (∀ id e w',
     async_delete id w = (Raise e, w') →
     w' = w ∧ e = KeyError id ∧ labels (self w) !! id = None).
Proof.
  intros Hinv. split_and!.
  - intros name color icon description e w' Hrun.
    destruct (async_create_cases name color icon description w)
      as [(id & _ & _ & Hc)|[(id & Hidx & Hnone & _)|(_ & k & _ & _ & _ & Hc)]].
    + rewrite Hc in Hrun. by injection Hrun as <- <-.
    + destruct (invariants_onto _ _ _ Hinv Hidx) as (label & Hlabel & _). congruence.
    + by rewrite Hc in Hrun.
  - intros id color description icon name e w' Hrun.
    destruct (async_update_raises _ _ _ _ _ _ _ _ Hinv Hrun)
      as [-> [?|(old & n & other & label & _ & -> & _ & _ & _ & ->)]].
    + split; [done|]. by left.
    + split; [done|]. right. by exists n.
  - intros id e w' Hrun. destruct (labels (self w) !! id) as [label|] eqn:Hid.
    + rewrite (async_delete_present id label) in Hrun by (eauto using inv_index).
      done.
    + rewrite async_delete_absent in Hrun by done. by injection Hrun as <- <-.
Qed.

(** C5. For an existing id in a valid state, update with a name [n] raises
    the [ValueError] of a duplicate name exactly when the normalization of
    [n] differs from the entity's normalized name and is the normalized name
    of another entity.  A rename whose normalization is the entity's own
    normalized name returns an entry named [n] and leaves the name index as
    it is.  A rename to a different normalized name that no other entity has
    returns: the entry it returns is named [n] and carries the new normalized
    name, the old key is no longer in the index, the new key is mapped to the
    same id, and the entity is still filed under, and carries, that id.  And
    whenever such a rename returns, this is what it has done. *)
Theorem update_rename_index (w : World) id old :
  valid (self w) →
  labels (self w) !! id = Some old →
  (∀ color description icon n,
     (async_update id color description icon (Given n) w).1
       = Raise (already_in_use n)
     ↔ normalize_label_name n ≠ normalized_name old ∧
       ∃ other e, other ≠ id ∧ labels (self w) !! other = Some e ∧
         normalized_name e = normalize_label_name n) ∧
  (∀ color description icon n,
     normalize_label_name n = normalized_name old →
     ∃ new w',
       async_update id color description icon (Given n) w = (Return new, w') ∧
       _normalized_name_label_idx (self w') = _normalized_name_label_idx (self w) ∧
       labels (self w') !! id = Some new ∧ label_id new = id ∧
       LabelEntry.name new = n ∧ normalized_name new = normalized_name old) ∧
  (∀ color description icon n,
     normalize_label_name n ≠ normalized_name old →
     (∀ other e, other ≠ id → labels (self w) !! other = Some e →
        normalized_name e ≠ normalize_label_name n) →
     ∃ new w',
       async_update id color description icon (Given n) w = (Return new, w') ∧
       _normalized_name_label_idx (self w') =
         <[normalize_label_name n := id]>
           (delete (normalized_name old) (_normalized_name_label_idx (self w))) ∧
       _normalized_name_label_idx (self w') !! normalized_name old = None ∧
       _normalized_name_label_idx (self w') !! normalize_label_name n = Some id ∧
       labels (self w') !! id = Some new ∧
       label_id new = id ∧ LabelEntry.name new = n ∧
       normalized_name new = normalize_label_name n ∧
       dom (labels (self w')) = dom (labels (self w))) ∧
  (∀ color description icon n new w',
     normalize_label_name n ≠ normalized_name old →
     async_update id color description icon (Given n) w = (Return new, w') →
     _normalized_name_label_idx (self w') =
       <[normalize_label_name n := id]>
         (delete (normalized_name old) (_normalized_name_label_idx (self w))) ∧
     _normalized_name_label_idx (self w') !! normalized_name old = None ∧
     _normalized_name_label_idx (self w') !! normalize_label_name n = Some id ∧
     labels (self w') !! id = Some new ∧
     label_id new = id ∧ LabelEntry.name new = n ∧
     normalized_name new = normalize_label_name n ∧
     dom (labels (self w')) = dom (labels (self w))).
Proof.
  intros Hv Hid. pose proof (valid_invariants _ Hv) as Hinv.
  pose proof (valid_key _ Hv id old Hid) as Hkey.
  pose proof (valid_normalized _ Hv id old Hid) as Hnorm.
  assert (Hother : ∀ n, normalize_label_name n ≠ normalized_name old →
    n ≠ LabelEntry.name old) by (intros n Hn ->; congruence).
  assert (Hrenamed : ∀ color description icon n new w',
    normalize_label_name n ≠ normalized_name old →
    _normalized_name_label_idx (self w) !! normalize_label_name n = None →
    renamed w id old
      (replace old (name_changes (field_changes old color description icon) n))
      = (Return new, w') →
    _normalized_name_label_idx (self w') =
      <[normalize_label_name n := id]>
        (delete (normalized_name old) (_normalized_name_label_idx (self w))) ∧
    _normalized_name_label_idx (self w') !! normalized_name old = None ∧
    _normalized_name_label_idx (self w') !! normalize_label_name n = Some id ∧
    labels (self w') !! id = Some new ∧
    label_id new = id ∧ LabelEntry.name new = n ∧
    normalized_name new = normalize_label_name n ∧
    dom (labels (self w')) = dom (labels (self w))).
  { intros color description icon n new w' Hnn Hidx Hrun.
    rewrite renamed_invariants in Hrun by done. injection Hrun as <- <-. simpl.
    split_and!; [done | | | | done | done | done |].
    - rewrite lookup_insert_ne by done. apply lookup_delete_eq.
    - apply lookup_insert_eq.
    - apply lookup_insert_eq.
    - apply dom_insert_lookup_L. by eexists. }
  split_and!.
  - intros color description icon n. split.
    + intros Hrun.
      destruct (async_update id color description icon (Given n) w) as [o w'] eqn:Hrun'.
      simpl in Hrun. subst o.
      destruct (async_update_raises _ _ _ _ _ _ _ _ Hinv Hrun')
        as [_ [[? _]|(old' & n' & other & label & Hid' & Hn' & Hnn & Hidx & Hlabel & _)]];
        [done|].
      injection Hn' as <-. assert (old' = old) as -> by congruence.
      split; [done|].
      destruct (invariants_onto _ _ _ Hinv Hidx) as (e & He & Hne).
      exists other, e. split_and!; [|done|done].
      intros ->. congruence.
    + intros (Hnn & other & e & Hne & He & Hn).
      rewrite (async_update_other_name id old) by auto.
      rewrite decide_True by done.
      rewrite <- Hn, (inv_index _ Hinv other e He), He. done.
  - intros color description icon n Hnn.
    destruct (decide (n = LabelEntry.name old)) as [Hn|Hn].
    + rewrite (async_update_same_name id old) by done.
      case_decide.
      * by exists old, w.
      * eexists _, _. split; [done|]. simpl. split_and!; [done | | done | done | done].
        apply lookup_insert_eq.
    + rewrite (async_update_other_name id old) by done.
      rewrite decide_False by tauto. rewrite renamed_invariants by done.
      eexists _, _. split; [done|]. simpl. split_and!; [| | done | done | done].
      * rewrite Hnn, insert_delete_eq. apply insert_id. by apply (inv_index _ Hinv).
      * apply lookup_insert_eq.
  - intros color description icon n Hnn Hfree.
    assert (Hidx : _normalized_name_label_idx (self w) !! normalize_label_name n = None).
    { destruct (_normalized_name_label_idx (self w) !! normalize_label_name n)
        as [other|] eqn:Hidx; [|done]. exfalso.
      destruct (invariants_onto _ _ _ Hinv Hidx) as (e & He & Hne).
      apply (Hfree other e); [|done|done]. intros ->. congruence. }
    rewrite (async_update_other_name id old) by auto.
    rewrite decide_True by done. rewrite Hidx.
    rewrite renamed_invariants by done. eexists _, _. split; [done|].
    eapply (Hrenamed color description icon n); [done | done |].
    by rewrite renamed_invariants.
  - intros color description icon n new w' Hnn Hrun.
    rewrite (async_update_other_name id old) in Hrun by auto.
    rewrite decide_True in Hrun by done.
    destruct (_normalized_name_label_idx (self w) !! normalize_label_name n)
      as [other|] eqn:Hidx; [by destruct (labels (self w) !! other)|].
    by eapply Hrenamed.
Qed.

End Updates.

(** ** Deletion *)

Section Deletion.
Context `{Runtime}.

(** C7. For an existing id in a state with the invariants, delete returns
    and adds to the trace, in this order, exactly one cleanup call to the
    device registry and one to the entity registry, both made while the
    entity is still in the entities map and in the name index, then the
    event and the save.  Afterwards the entity is gone from both
    dictionaries: get returns nothing for the id, no lookup by name returns
    the entity, and the listing does not contain it. *)
Theorem delete_cleans_up_then_removes (w : World) id label :
  invariants (self w) →
  labels (self w) !! id = Some label →
  ∃ w',
    async_delete id w = (Return (), w') ∧
    trace w' = trace w ++
      [mkObserved (dr_async_clear_label_id id) (self w);
       mkObserved (er_async_clear_label_id id) (self w);
       mkObserved (async_fire EVENT_LABEL_REGISTRY_UPDATED "remove" id) (self w');
       mkObserved (async_delay_save SAVE_DELAY) (self w')] ∧
    _normalized_name_label_idx (self w) !! normalized_name label = Some id ∧
    labels (self w') = delete id (labels (self w)) ∧
    _normalized_name_label_idx (self w') =
      delete (normalized_name label) (_normalized_name_label_idx (self w)) ∧
    async_get_label id w' = (Return None, w') ∧
    (∀ name found,
       async_get_label_by_name name w' = (Return (Some found), w') → found ≠ label) ∧
    (∀ name, normalize_label_name name = normalized_name label →
       async_get_label_by_name name w' = (Return None, w')) ∧
    (∃ listed, async_list_labels w' = (Return listed, w') ∧ label ∉ listed).
Proof.
  intros Hinv Hid.
  pose proof (inv_index _ Hinv id label Hid) as Hidx.
  pose proof (async_delete_invariants id w Hinv) as Hinv'.
  rewrite (async_delete_present id label) in Hinv' by (by eauto).
  exists (deleted w id label).
  split; [apply async_delete_present; by eauto|].
  split_and!; try done.
  - unfold async_get_label. unfold_monad. simpl. by rewrite lookup_delete_eq.
  - intros name found Hrun ->. rewrite async_get_label_by_name_run in Hrun.
    destruct (_normalized_name_label_idx (self (deleted w id label))
                !! normalize_label_name name) as [other|] eqn:Hother; [|done].
    destruct (labels (self (deleted w id label)) !! other) as [e|] eqn:He; [|done].
    injection Hrun as ->.
    pose proof (inv_index _ Hinv' other label He) as Hback. simpl in Hback.
    by rewrite lookup_delete_eq in Hback.
  - intros name Hname. rewrite async_get_label_by_name_run. simpl.
    by rewrite Hname, lookup_delete_eq.
  - eexists. split; [done|]. simpl. intros Hin.
    apply list_elem_of_fmap in Hin as ([other e] & -> & Hin). simpl in *.
    apply elem_of_map_to_list in Hin.
    apply lookup_delete_Some in Hin as [Hne Hin].
    apply Hne. by eapply (inv_unique _ Hinv).
Qed.

End Deletion.

(** ** Saving and loading *)

Section Persistence.
Context `{Runtime}.

Lemma stored_lookups e :
  stored e !! "name" = Some (Some (name e)) ∧
  stored e !! "label_id" = Some (Some (label_id e)) ∧
  stored e !! "icon" = Some (icon e) ∧
  stored e !! "description" = Some (description e) ∧
  stored e !! "color" = Some (color e) ∧
  stored e !! "normalized_name" = None.
Proof. unfold stored. split_and!; by simplify_map_eq. Qed.

Lemma stored_fields e :
  dom (stored e) = {[ "color"; "description"; "icon"; "label_id"; "name" ]}.
Proof. unfold stored. rewrite !dom_insert_L, dom_empty_L. set_solver. Qed.

(** Filling a dictionary entry by entry, first entry first, is the union
    with the list read as a map when no key comes twice. *)
Lemma foldl_insert_union {V} (l : list (string * V)) :
  ∀ acc : gmap string V,
    NoDup l.*1 →
    foldl (λ a p, <[p.1 := p.2]> a) acc l = list_to_map l ∪ acc.
Proof.
  induction l as [|[k v] l IH]; intros acc Hnodup; csimpl in *.
  - by rewrite (left_id_L ∅ (∪)).
  - apply NoDup_cons in Hnodup as [Hk Hnodup]. rewrite IH by done.
    rewrite <- insert_union_l. symmetry. apply insert_union_r.
    by apply not_elem_of_list_to_map_1.
Qed.

(** The loop of [async_load] on records written by [_data_to_save]. *)
Lemma async_load_loop_stored (l : list (string * LabelEntry)) :
  ∀ acc w,
    (∀ id e, (id, e) ∈ l →
       label_id e = id ∧ normalized_name e = normalize_label_name (name e)) →
    async_load_loop (stored <$> l.*2) acc w =
      (Return (foldl (λ a p, <[p.1 := p.2]> a) acc l),
       mkWorld
         (mkRegistry (labels (self w))
            (foldl (λ a p, <[p.1 := p.2]> a) (_normalized_name_label_idx (self w))
               ((λ p, (normalized_name p.2, p.1)) <$> l)))
         (trace w)).
Proof.
  induction l as [|[id e] l IH]; intros acc w Hl.
  - simpl. unfold_monad. by destruct w as [[] ?].
  - destruct (Hl id e) as [Hid Hn]; [apply list_elem_of_here|].
    destruct (stored_lookups e) as (Hname & Hlid & Hicon & Hdesc & Hcolor & _).
    simpl. unfold_monad. rewrite Hname. simpl. rewrite Hcolor. simpl.
    rewrite Hdesc. simpl. rewrite Hicon. simpl. rewrite Hlid. simpl.
    rewrite IH by (intros id' e' Hin; apply Hl; by apply list_elem_of_further).
    simpl. rewrite <- Hn. subst id. by destruct e.
Qed.

(** The index rebuilt from the entities is the index. *)
Lemma index_rebuilt r :
  invariants r →
  list_to_map ((λ p, (normalized_name p.2, p.1)) <$> map_to_list (labels r))
    = _normalized_name_label_idx r.
Proof.
  intros Hinv.
  assert (Hnodup :
    NoDup ((λ p, (normalized_name p.2, p.1)) <$> map_to_list (labels r)).*1).
  { rewrite <- list_fmap_compose. apply NoDup_fmap_2_strong; [|apply NoDup_map_to_list].
    intros [id1 e1] [id2 e2] H1 H2 Heq. simpl in Heq.
    apply elem_of_map_to_list in H1, H2.
    assert (id1 = id2) as -> by by eapply (inv_unique _ Hinv). congruence. }
  apply map_eq. intros k. apply option_eq. intros id.
  rewrite <- elem_of_list_to_map by done. rewrite list_elem_of_fmap. split.
  - intros ([id' e] & Heq & Hin). simpl in Heq. injection Heq as -> ->.
    apply elem_of_map_to_list in Hin. by apply (inv_index _ Hinv).
  - intros Hk. destruct (invariants_onto _ _ _ Hinv Hk) as (e & He & <-).
    exists (id, e). split; [done|]. by apply elem_of_map_to_list.
Qed.

(** C6. For a valid registry state, the snapshot of the save path holds one
    record per entity, with exactly the fields color, description, icon,
    label_id and name (so no normalized name) and the entity's values; and a
    new registry loading that snapshot ends with the same entities map,
    normalized names included, and the same name index. *)
Theorem reload_snapshot_roundtrip (r : Registry) :
  valid r →
  (∃ records,
     _data_to_save r = {[ "labels" := records ]} ∧
     length records = size (labels r) ∧
     ∀ record, record ∈ records ↔
       ∃ id e, labels r !! id = Some e ∧ record = stored e ∧
         dom record = {[ "color"; "description"; "icon"; "label_id"; "name" ]} ∧
         record !! "label_id" = Some (Some id) ∧
         record !! "name" = Some (Some (name e)) ∧
         record !! "color" = Some (color e) ∧
         record !! "description" = Some (description e) ∧
         record !! "icon" = Some (icon e)) ∧
  async_load_registry (Some (_data_to_save r)) = (Return (), mkWorld r []).
Proof.
  intros Hv. pose proof (valid_invariants _ Hv) as Hinv. split.
  - eexists. split; [done|]. split.
    + by rewrite !length_fmap, length_map_to_list.
    + intros record. rewrite list_elem_of_fmap. split.
      * intros (e & -> & Hin). apply list_elem_of_fmap in Hin as ([id e'] & -> & Hin).
        apply elem_of_map_to_list in Hin. simpl.
        destruct (stored_lookups e') as (? & ? & ? & ? & ? & _).
        pose proof (valid_key _ Hv id e' Hin) as Hkey. subst id.
        exists (label_id e'), e'. split_and!; try done.
      * intros (id & e & He & -> & _). exists e. split; [done|].
        apply list_elem_of_fmap. exists (id, e). split; [done|].
        by apply elem_of_map_to_list.
  - unfold async_load_registry, async_load, _data_to_save. unfold_monad.
    rewrite lookup_singleton_eq. cbv beta iota.
    rewrite async_load_loop_stored.
    + simpl. rewrite !foldl_insert_union.
      * rewrite !(right_id_L ∅ (∪)), list_to_map_to_list, index_rebuilt by done.
        by destruct r.
      * rewrite <- list_fmap_compose. apply NoDup_fmap_2_strong; [|apply NoDup_map_to_list].
        intros [id1 e1] [id2 e2] H1 H2 Heq. simpl in Heq.
        apply elem_of_map_to_list in H1, H2.
        assert (id1 = id2) as -> by by eapply (inv_unique _ Hinv). congruence.
      * apply NoDup_fst_map_to_list.
    + intros id e Hin. apply elem_of_map_to_list in Hin.
      split; [by eapply valid_key | by eapply valid_normalized].
Qed.

End Persistence.

(** ** Lookup by name *)

Section ByName.
Context `{Runtime}.

(** In a state with the invariants, a lookup string with the normalized name
    of an entity resolves to that entity. *)
Lemma lookup_by_normalized_name (w : World) id e m :
  invariants (self w) → labels (self w) !! id = Some e →
  normalize_label_name m = normalized_name e →
  async_get_label_by_name m w = (Return (Some e), w).
Proof.
  intros Hinv He Hm. rewrite async_get_label_by_name_run, Hm.
  by rewrite (inv_index _ Hinv id e He), He.
Qed.

(** Names that differ in case and in space characters only are normalized
    alike: [str.replace] takes out every space. *)
Lemma str_replace_space_app s1 s2 :
  str_replace " " "" (s1 +:+ " " +:+ s2) = str_replace " " "" (s1 +:+ s2).
Proof. induction s1 as [|c s1 IH]; simpl; [done | by rewrite IH]. Qed.

End ByName.

(** ** The examples *)

Section Checks.
Local Existing Instance ascii_runtime.

Lemma foo_world_run :
  async_create "Foo" None None None fresh = (Return foo_label, foo_world).
Proof. vm_compute. reflexivity. Qed.

Lemma work_home_world_run : run_ops work_home_ops fresh = (Return (), work_home_world).
Proof. vm_compute. reflexivity. Qed.

Lemma work_home_world_valid : valid (self work_home_world).
Proof. apply (run_ops_valid work_home_ops fresh), valid_init. Qed.

(** Names colliding on their slug get the ids [foo], [foo_2], [foo_3] in
    that order. *)
Example colliding_slugs :
  let w1 := (async_create "Foo" None None None fresh).2 in
  let w2 := (async_create "Foo!" None None None w1).2 in
  (async_create "Foo" None None None fresh).1
    = Return (new_label "foo" "Foo" None None None) ∧
  (async_create "Foo!" None None None w1).1
    = Return (new_label "foo_2" "Foo!" None None None) ∧
  (async_create "-foo-" None None None w2).1
    = Return (new_label "foo_3" "-foo-" None None None).
Proof. split_and!; vm_compute; reflexivity. Qed.

(** An entity named "Night Mode" is found under "nightmode", "NIGHTMODE" and
    " n i g h t m o d e ". *)
Example night_mode_lookups :
  async_create "Night Mode" None None None fresh = (Return night_label, night_world) ∧
  async_get_label_by_name "nightmode" night_world = (Return (Some night_label), night_world) ∧
  async_get_label_by_name "NIGHTMODE" night_world = (Return (Some night_label), night_world) ∧
  async_get_label_by_name " n i g h t m o d e " night_world
    = (Return (Some night_label), night_world).
Proof. split_and!; vm_compute; reflexivity. Qed.

(** C8. The normalization takes out space characters only.  An entity
    created with the name "Night<TAB>Mode" and the lookup string "NightMode"
    are equal after case folding and the removal of whitespace, yet the
    normalized name keeps the tab and the lookup by name finds nothing. *)
Theorem tab_is_not_removed :
  let n := "Night" +:+ TAB +:+ "Mode" in
  let m := "NightMode" in
  async_create n None None None fresh = (Return night_tab_label, night_tab_world) ∧
  remove_whitespace (casefold n) = remove_whitespace (casefold m) ∧
  normalize_label_name n = "night" +:+ TAB +:+ "mode" ∧
  normalize_label_name m = "nightmode" ∧
  async_get_label_by_name m night_tab_world = (Return None, night_tab_world).
Proof. split_and!; vm_compute; reflexivity. Qed.

Lemma invariants_preserved_witness :
  let w' := (run_ops example_ops fresh).2 in
  invariants (self fresh) ∧
  run_ops example_ops fresh = (Return (), w') ∧
  (∀ id e, labels (self w') !! id = Some e →
     _normalized_name_label_idx (self w') !! normalized_name e = Some id) ∧
  size (labels (self w')) = size (_normalized_name_label_idx (self w')) ∧
  (∀ id1 id2 e1 e2,
     labels (self w') !! id1 = Some e1 → labels (self w') !! id2 = Some e2 →
     normalized_name e1 = normalized_name e2 → id1 = id2).
Proof.
  intros w'.
  assert (Hinv : invariants (self fresh)) by apply invariants_init.
  assert (Hrun : run_ops example_ops fresh = (Return (), w'))
    by (vm_compute; reflexivity).
  split; [exact Hinv|]. split; [exact Hrun|].
  exact (invariants_preserved example_ops fresh w' Hinv Hrun).
Defined.

Lemma create_duplicate_name_fails_witness :
  invariants (self fresh) ∧
  casefold "Foo" = casefold "foo" ∧
  async_create "Foo" None None None fresh = (Return foo_label, foo_world) ∧
  async_create "foo" (Some "blue") None None foo_world
    = (Raise (already_in_use "foo"), foo_world).
Proof.
  assert (Hinv : invariants (self fresh)) by apply invariants_init.
  assert (Hfold : casefold "Foo" = casefold "foo") by reflexivity.
  assert (Hrun : async_create "Foo" None None None fresh = (Return foo_label, foo_world))
    by (vm_compute; reflexivity).
  split_and!; [exact Hinv | exact Hfold | exact Hrun |].
  exact (proj2 (create_duplicate_name_fails fresh Hinv)
           None None None foo_label foo_world (Some "blue") None None Hfold Hrun).
Defined.

Lemma generated_id_first_unused_witness :
  _normalized_name_label_idx (self foo_world) !! normalize_label_name "Foo!" = None ∧
  ∃ label w',
    async_create "Foo!" None None None foo_world = (Return label, w') ∧
    generated_id (labels (self foo_world)) (slugify "Foo!") (label_id label) ∧
    (label_id label ∉ dom (labels (self foo_world))) ∧
    labels (self w') !! label_id label = Some label ∧
    ∀ id, generated_id (labels (self foo_world)) (slugify "Foo!") id → id = label_id label.
Proof.
  assert (Hidx :
    _normalized_name_label_idx (self foo_world) !! normalize_label_name "Foo!" = None)
    by (vm_compute; reflexivity).
  split; [exact Hidx|].
  exact (generated_id_first_unused foo_world "Foo!" None None None Hidx).
Defined.

Lemma update_without_change_is_noop_witness :
  labels (self foo_world) !! "foo" = Some foo_label ∧
  keeps (color foo_label) (Given None) ∧
  keeps (description foo_label) UNDEFINED ∧
  keeps (icon foo_label) (Given None) ∧
  keeps (name foo_label) (Given "Foo") ∧
  async_update "foo" (Given None) UNDEFINED (Given None) (Given "Foo") foo_world
    = (Return foo_label, foo_world) ∧
  async_update "foo" UNDEFINED UNDEFINED UNDEFINED UNDEFINED foo_world
    = (Return foo_label, foo_world).
Proof.
  assert (Hid : labels (self foo_world) !! "foo" = Some foo_label)
    by (vm_compute; reflexivity).
  assert (Hc : keeps (color foo_label) (Given None)) by reflexivity.
  assert (Hd : keeps (description foo_label) (@UNDEFINED (option string))) by exact I.
  assert (Hi : keeps (icon foo_label) (Given None)) by reflexivity.
  assert (Hn : keeps (name foo_label) (Given "Foo")) by reflexivity.
  split_and!; [exact Hid | exact Hc | exact Hd | exact Hi | exact Hn | |];
    apply (update_without_change_is_noop foo_world "foo" foo_label
             (Given None) UNDEFINED (Given None) (Given "Foo") Hid Hc Hd Hi Hn).
Defined.

Lemma update_rename_index_witness :
  valid (self work_home_world) ∧
  labels (self work_home_world) !! "work" = Some work_label ∧
  (async_update "work" UNDEFINED UNDEFINED UNDEFINED (Given "h o m e") work_home_world).1
    = Raise (already_in_use "h o m e") ∧
  (∃ new w',
     async_update "work" UNDEFINED UNDEFINED UNDEFINED (Given "W O R K") work_home_world
       = (Return new, w') ∧
     _normalized_name_label_idx (self w')
       = _normalized_name_label_idx (self work_home_world) ∧
     labels (self w') !! "work" = Some new ∧ label_id new = "work" ∧
     name new = "W O R K" ∧ normalized_name new = "work") ∧
  (∃ new w',
     async_update "work" UNDEFINED UNDEFINED UNDEFINED (Given "Office") work_home_world
       = (Return new, w') ∧
     _normalized_name_label_idx (self w') !! "work" = None ∧
     _normalized_name_label_idx (self w') !! "office" = Some "work" ∧
     labels (self w') !! "work" = Some new ∧
     label_id new = "work" ∧ name new = "Office" ∧ normalized_name new = "office").
Proof.
  assert (Hv : valid (self work_home_world)) by apply work_home_world_valid.
  assert (Hid : labels (self work_home_world) !! "work" = Some work_label)
    by (vm_compute; reflexivity).
  destruct (update_rename_index work_home_world "work" work_label Hv Hid)
    as (Hfails & Hsame & Hrename & _).
  split_and!; [exact Hv | exact Hid | | |].
  - apply Hfails. split; [vm_compute; discriminate|].
    exists "home", home_label. split_and!; [discriminate | |]; vm_compute; reflexivity.
  - apply Hsame. vm_compute. reflexivity.
  - assert (Hnn : normalize_label_name "Office" ≠ normalized_name work_label)
      by (vm_compute; discriminate).
    assert (Hfree : ∀ other e, other ≠ "work" →
      labels (self work_home_world) !! other = Some e →
      normalized_name e ≠ normalize_label_name "Office").
    { intros other e Hne He Hn.
      assert (Hidx : _normalized_name_label_idx (self work_home_world)
                       !! normalize_label_name "Office" = Some other).
      { rewrite <- Hn. by apply (inv_index _ (valid_invariants _ Hv)). }
      vm_compute in Hidx. discriminate. }
    destruct (Hrename UNDEFINED UNDEFINED UNDEFINED "Office" Hnn Hfree)
      as (new & w' & Hrun & _ & Hold & Hnew & Hlabel & Hlid & Hname & Hnorm & _).
    exists new, w'.
    split_and!; [exact Hrun | exact Hold | exact Hnew | exact Hlabel | exact Hlid
                | exact Hname | exact Hnorm].
Defined.

Lemma reload_snapshot_roundtrip_witness :
  valid (self work_home_world) ∧
  async_load_registry (Some (_data_to_save (self work_home_world)))
    = (Return (), mkWorld (self work_home_world) []).
Proof.
  assert (Hv : valid (self work_home_world)) by apply work_home_world_valid.
  split; [exact Hv|].
  exact (proj2 (reload_snapshot_roundtrip (self work_home_world) Hv)).
Defined.

Lemma delete_cleans_up_then_removes_witness :
  invariants (self work_home_world) ∧
  labels (self work_home_world) !! "home" = Some home_label ∧
  ∃ w',
    async_delete "home" work_home_world = (Return (), w') ∧
    trace w' = trace work_home_world ++
      [mkObserved (dr_async_clear_label_id "home") (self work_home_world);
       mkObserved (er_async_clear_label_id "home") (self work_home_world);
       mkObserved (async_fire EVENT_LABEL_REGISTRY_UPDATED "remove" "home") (self w');
       mkObserved (async_delay_save SAVE_DELAY) (self w')] ∧
    async_get_label "home" w' = (Return None, w') ∧
    async_get_label_by_name "Home" w' = (Return None, w') ∧
    (∃ listed, async_list_labels w' = (Return listed, w') ∧ home_label ∉ listed).
Proof.
  assert (Hinv : invariants (self work_home_world))
    by apply valid_invariants, work_home_world_valid.
  assert (Hid : labels (self work_home_world) !! "home" = Some home_label)
    by (vm_compute; reflexivity).
  split_and!; [exact Hinv | exact Hid |].
  destruct (delete_cleans_up_then_removes work_home_world "home" home_label Hinv Hid)
    as (w' & Hrun & Htrace & _ & _ & _ & Hget & _ & Hname & Hlist).
  exists w'. split_and!; [exact Hrun | exact Htrace | exact Hget | | exact Hlist].
  apply Hname. vm_compute. reflexivity.
Defined.

Lemma unknown_id_not_found_witness :
  labels (self work_home_world) !! "garden" = None ∧
  (∀ color description icon name,
     async_update "garden" color description icon name work_home_world
       = (Raise (KeyError "garden"), work_home_world)) ∧
  async_delete "garden" work_home_world = (Raise (KeyError "garden"), work_home_world).
Proof.
  assert (Hid : labels (self work_home_world) !! "garden" = None)
    by (vm_compute; reflexivity).
  split; [exact Hid|].
  exact (unknown_id_not_found work_home_world "garden" Hid).
Defined.

Lemma failure_leaves_world_unchanged_witness :
  invariants (self work_home_world) ∧
  async_create "HOME" None None None work_home_world
    = (Raise (already_in_use "HOME"), work_home_world) ∧
  (∀ e w',
     async_create "HOME" None None None work_home_world = (Raise e, w') →
     w' = work_home_world ∧ e = already_in_use "HOME") ∧
  (∀ e w',
     async_delete "garden" work_home_world = (Raise e, w') →
     w' = work_home_world ∧ e = KeyError "garden" ∧
     labels (self work_home_world) !! "garden" = None).
Proof.
  assert (Hinv : invariants (self work_home_world))
    by apply valid_invariants, work_home_world_valid.
  destruct (failure_leaves_world_unchanged work_home_world Hinv)
    as (Hcreate & _ & Hdelete).
  split_and!; [exact Hinv | vm_compute; reflexivity | |].
  - intros e w'. apply Hcreate.
  - intros e w'. apply Hdelete.
Defined.

End Checks.

(** * Further properties of the methods *)

(** ** What a returning call has done *)

Section Returns.
Context `{Runtime}.

Lemma async_create_returns name color icon description w label w' :
  async_create name color icon description w = (Return label, w') →
  _normalized_name_label_idx (self w) !! normalize_label_name name = None ∧
  labels (self w) !! label_id label = None ∧
  label = new_label (label_id label) name color icon description ∧
  w' = created w label.
Proof.
  intros Hrun.
  destruct (async_create_cases name color icon description w)
    as [(id & _ & _ & Hc)|[(id & _ & _ & Hc)|(Hidx & k & _ & Hout & _ & Hc)]];
    rewrite Hc in Hrun; [done | done |].
  injection Hrun as <- <-. split_and!; [done | by apply not_elem_of_dom | done | done].
Qed.

Lemma async_delete_returns id w w' :
  async_delete id w = (Return (), w') →
  ∃ label, labels (self w) !! id = Some label ∧
    is_Some (_normalized_name_label_idx (self w) !! normalized_name label) ∧
    w' = deleted w id label.
Proof.
  intros Hrun. destruct (labels (self w) !! id) as [label|] eqn:Hid;
    [|by rewrite async_delete_absent in Hrun].
  exists label.
  destruct (_normalized_name_label_idx (self w) !! normalized_name label)
    as [v|] eqn:Hidx.
  - rewrite (async_delete_present id label) in Hrun by (by eauto).
    injection Hrun as <-. by eauto.
  - exfalso. revert Hrun. unfold async_delete, async_schedule_save. unfold_monad.
    simpl. rewrite Hid. simpl. rewrite Hid. simpl. by rewrite Hidx.
Qed.

Lemma default_changed {A} `{EqDecision A} (current : A) (value : Arg A) :
  default current (changed current value) = applied current value.
Proof.
  destruct value as [|v]; simpl; [done|]. by case_decide.
Qed.

Lemma replace_no_changes old : replace old no_changes = old.
Proof. by destruct old. Qed.

(** The entry a returning [async_update] gives back, and the world it
    leaves. *)
Lemma async_update_returns id color description icon name w new w' :
  async_update id color description icon name w = (Return new, w') →
  ∃ old changes,
    labels (self w) !! id = Some old ∧
    new = replace old changes ∧
    ch_color changes = changed (LabelEntry.color old) color ∧
    ch_description changes = changed (LabelEntry.description old) description ∧
    ch_icon changes = changed (LabelEntry.icon old) icon ∧
    match name with
    | Given n =>
        if decide (n = LabelEntry.name old)
        then ch_name changes = None ∧ ch_normalized_name changes = None
        else ch_name changes = Some n ∧
             ch_normalized_name changes = Some (normalize_label_name n)
    | UNDEFINED => ch_name changes = None ∧ ch_normalized_name changes = None
    end ∧
    ((changes = no_changes ∧ w' = w) ∨
     (changes ≠ no_changes ∧ ∃ idx, w' = updated w id new idx ∧
        ((ch_normalized_name changes = None ∧
          idx = _normalized_name_label_idx (self w)) ∨
         (∃ popped,
            _normalized_name_label_idx (self w) !! normalized_name old = Some popped ∧
            idx = <[normalized_name new := popped]>
                    (delete (normalized_name old)
                       (_normalized_name_label_idx (self w))))))).
Proof.
  intros Hrun. destruct (labels (self w) !! id) as [old|] eqn:Hid;
    [|by rewrite async_update_absent in Hrun].
  exists old.
  assert (Hsame : keeps (LabelEntry.name old) name →
    ∃ changes, new = replace old changes ∧
      changes = field_changes old color description icon ∧
      ((changes = no_changes ∧ w' = w) ∨
       (changes ≠ no_changes ∧
        w' = updated w id new (_normalized_name_label_idx (self w))))).
  { intros Hkeep. rewrite (async_update_same_name id old) in Hrun by done.
    eexists. split; [|split; [done|]].
    - case_decide as Hc; injection Hrun as <- <-; [|done].
      by rewrite Hc, replace_no_changes.
    - case_decide as Hc; injection Hrun as <- <-; [by left | right; by split]. }
  destruct name as [|n].
  - destruct Hsame as (changes & -> & -> & Hw); [done|].
    eexists. split_and!; try done.
    destruct Hw as [[? ->]|[? ->]]; [by left | right]. split; [done|].
    eexists. split; [done|]. by left.
  - destruct (decide (n = LabelEntry.name old)) as [Hn|Hn].
    + destruct Hsame as (changes & -> & -> & Hw); [done|].
      eexists. split_and!; try done.
      destruct Hw as [[? ->]|[? ->]]; [by left | right]. split; [done|].
      eexists. split; [done|]. by left.
    + rewrite (async_update_other_name id old) in Hrun by done.
      exists (name_changes (field_changes old color description icon) n).
      assert (Hrenamed : renamed w id old
        (replace old (name_changes (field_changes old color description icon) n))
        = (Return new, w') →
        new = replace old (name_changes (field_changes old color description icon) n) ∧
        ∃ popped,
          _normalized_name_label_idx (self w) !! normalized_name old = Some popped ∧
          w' = updated w id new
                 (<[normalized_name new := popped]>
                    (delete (normalized_name old)
                       (_normalized_name_label_idx (self w))))).
      { unfold renamed.
        destruct (_normalized_name_label_idx (self w) !! normalized_name old)
          as [popped|]; [|done].
        intros [= <- <-]. split; [done|]. by exists popped. }
      assert (Hdone : new
          = replace old (name_changes (field_changes old color description icon) n) ∧
        ∃ popped,
          _normalized_name_label_idx (self w) !! normalized_name old = Some popped ∧
          w' = updated w id new
                 (<[normalized_name new := popped]>
                    (delete (normalized_name old)
                       (_normalized_name_label_idx (self w))))).
      { case_decide; [|by apply Hrenamed].
        destruct (_normalized_name_label_idx (self w) !! normalize_label_name n)
          as [other|]; [by destruct (labels (self w) !! other)|]. by apply Hrenamed. }
      destruct Hdone as (Hnew & popped & Hpop & ->).
      split_and!; try done. right. split; [done|].
      eexists. split; [done|]. right. by exists popped.
Qed.

End Returns.

(** ** Creating and deleting *)

Section CreateDelete.
Context `{Runtime}.

(** X1. The entry a create returns carries the arguments of the call and
    the normalization of the name; right after the call it is what the
    lookups by id and by name return and it is listed; the trace has grown
    by one scheduled save followed by one create event, both made once both
    dictionaries hold the entry; every other id is as before. *)
Theorem created_label_is_found (w : World) name color icon description label w' :
  async_create name color icon description w = (Return label, w') →
  (LabelEntry.name label = name ∧ LabelEntry.color label = color ∧
   LabelEntry.icon label = icon ∧ LabelEntry.description label = description ∧
   normalized_name label = normalize_label_name name) ∧
  async_get_label (label_id label) w' = (Return (Some label), w') ∧
  async_get_label_by_name name w' = (Return (Some label), w') ∧
  (∃ listed, async_list_labels w' = (Return listed, w') ∧ label ∈ listed) ∧
  trace w' = trace w ++
    [mkObserved (async_delay_save SAVE_DELAY) (self w');
     mkObserved (async_fire EVENT_LABEL_REGISTRY_UPDATED "create" (label_id label))
       (self w')] ∧
  (∀ other, other ≠ label_id label →
     labels (self w') !! other = labels (self w) !! other) ∧
  size (labels (self w')) = S (size (labels (self w))).
Proof.
  intros Hrun.
  destruct (async_create_returns _ _ _ _ _ _ _ Hrun) as (Hidx & Hid & Hlabel & ->).
  assert (Hn : normalized_name label = normalize_label_name name) by by rewrite Hlabel.
  split; [by rewrite Hlabel|]. split_and!.
  - unfold async_get_label. unfold_monad. simpl. by rewrite lookup_insert_eq.
  - rewrite async_get_label_by_name_run. simpl.
    by rewrite <- Hn, !lookup_insert_eq.
  - eexists. split; [done|]. simpl. apply list_elem_of_fmap.
    exists (label_id label, label). split; [done|].
    apply elem_of_map_to_list, lookup_insert_eq.
  - done.
  - intros other Hother. simpl. by rewrite lookup_insert_ne.
  - simpl. by apply map_size_insert_None.
Qed.

(** X2. In a state with the invariants a create does not disturb the lookup
    of any differently normalized name. *)
Theorem create_keeps_other_names (w : World) name color icon description label w' m :
  invariants (self w) →
  async_create name color icon description w = (Return label, w') →
  normalize_label_name m ≠ normalize_label_name name →
  (async_get_label_by_name m w').1 = (async_get_label_by_name m w).1.
Proof.
  intros Hinv Hrun Hm.
  destruct (async_create_returns _ _ _ _ _ _ _ Hrun) as (Hidx & Hid & Hlabel & ->).
  rewrite !async_get_label_by_name_run. simpl.
  assert (Hn : normalized_name label = normalize_label_name name) by by rewrite Hlabel.
  rewrite Hn, lookup_insert_ne by done.
  destruct (_normalized_name_label_idx (self w) !! normalize_label_name m)
    as [other|] eqn:Hother; [|done].
  destruct (invariants_onto _ _ _ Hinv Hother) as (e & He & _).
  rewrite lookup_insert_ne by congruence. done.
Qed.

(** X3. In a state with the invariants a delete that returns removes one
    entity and nothing else: every other id keeps its entity, and the lookup
    of every name whose normalization is not the deleted entity's normalized
    name gives what it gave before. *)
Theorem delete_keeps_the_others (w : World) id w' :
  invariants (self w) →
  async_delete id w = (Return (), w') →
  ∃ label,
    labels (self w) !! id = Some label ∧
    (∀ other, other ≠ id → labels (self w') !! other = labels (self w) !! other) ∧
    (∀ m, normalize_label_name m ≠ normalized_name label →
       (async_get_label_by_name m w').1 = (async_get_label_by_name m w).1) ∧
    S (size (labels (self w'))) = size (labels (self w)).
Proof.
  intros Hinv Hrun.
  destruct (async_delete_returns _ _ _ Hrun) as (label & Hid & _ & ->).
  exists label. split_and!; [done | | |].
  - intros other Hother. simpl. by rewrite lookup_delete_ne.
  - intros m Hm. rewrite !async_get_label_by_name_run. simpl.
    rewrite lookup_delete_ne by done.
    destruct (_normalized_name_label_idx (self w) !! normalize_label_name m)
      as [other|] eqn:Hother; [|done].
    destruct (invariants_onto _ _ _ Hinv Hother) as (e & He & Hne).
    rewrite lookup_delete_ne; [done|]. intros ->. congruence.
  - simpl. rewrite map_size_delete_Some by (by eexists).
    pose proof (map_size_ne_0_lookup_2 _ _ (mk_is_Some _ _ Hid)). lia.
Qed.

(** X4. Deleting the entity a create has just returned gives back both
    dictionaries as they were before the create. *)
Theorem create_then_delete_restores (w : World) name color icon description label w' :
  async_create name color icon description w = (Return label, w') →
  ∃ w'', async_delete (label_id label) w' = (Return (), w'') ∧ self w'' = self w.
Proof.
  intros Hrun.
  destruct (async_create_returns _ _ _ _ _ _ _ Hrun) as (Hidx & Hid & Hlabel & ->).
  assert (Hn : normalized_name label = normalize_label_name name) by by rewrite Hlabel.
  eexists. split.
  - apply (async_delete_present _ label); simpl; [apply lookup_insert_eq|].
    rewrite lookup_insert_eq. by eexists.
  - simpl. rewrite !delete_insert_id by (done || by rewrite Hn). by destruct (self w).
Qed.

(** X5. An id is free again after its entity was deleted: a create that
    follows the delete and whose name has that id as its slug returns an
    entity with the same id. *)
Theorem deleted_id_is_reused (w : World) id w1 name color icon description label w2 :
  async_delete id w = (Return (), w1) →
  slugify name = id →
  async_create name color icon description w1 = (Return label, w2) →
  label_id label = id.
Proof.
  intros Hdel Hslug Hrun.
  destruct (async_delete_returns _ _ _ Hdel) as (old & Hid & _ & ->).
  destruct (async_create_cases name color icon description (deleted w id old))
    as [(? & _ & _ & Hc)|[(? & _ & _ & Hc)|(_ & k & Hk & Hout & Hbelow & Hc)]];
    rewrite Hc in Hrun; [done | done |].
  injection Hrun as <- _. simpl.
  destruct (decide (k = 1)) as [->|Hk1]; [by rewrite candidate_one|].
  exfalso. specialize (Hbelow 1). rewrite candidate_one, Hslug in Hbelow.
  simpl in Hbelow. rewrite dom_delete_L in Hbelow.
  assert (Hin : id ∈ dom (labels (self w)) ∖ {[id]}) by (apply Hbelow; lia).
  apply elem_of_difference in Hin as [_ Hin]. by apply Hin, elem_of_singleton.
Qed.

End CreateDelete.

(** ** Updating *)

Section Updating.
Context `{Runtime}.

Lemma changed_Some {A} `{EqDecision A} (current : A) (value : Arg A) v :
  changed current value = Some v → v ≠ current.
Proof.
  destruct value as [|v']; simpl; [done|]. case_decide; [|done].
  intros [= <-]. congruence.
Qed.

(** X6. The entry an update returns has the id of the entry it replaces;
    each of color, description, icon and name has the given value where one
    was given and the old value otherwise; the normalized name is recomputed
    exactly when a different name was given.  The entry is what the
    entities map then holds under the id, no other id is touched and the set
    of ids is the same. *)
Theorem update_sets_given_fields (w : World) id color description icon name new w' :
  async_update id color description icon name w = (Return new, w') →
  ∃ old,
    labels (self w) !! id = Some old ∧
    label_id new = label_id old ∧
    LabelEntry.color new = applied (LabelEntry.color old) color ∧
    LabelEntry.description new = applied (LabelEntry.description old) description ∧
    LabelEntry.icon new = applied (LabelEntry.icon old) icon ∧
    LabelEntry.name new = applied (LabelEntry.name old) name ∧
    normalized_name new =
      match name with
      | Given n =>
          if decide (n = LabelEntry.name old) then normalized_name old
          else normalize_label_name n
      | UNDEFINED => normalized_name old
      end ∧
    labels (self w') !! id = Some new ∧
    (∀ other, other ≠ id → labels (self w') !! other = labels (self w) !! other) ∧
    dom (labels (self w')) = dom (labels (self w)).
Proof.
  intros Hrun.
  destruct (async_update_returns _ _ _ _ _ _ _ _ Hrun)
    as (old & changes & Hid & -> & Hc & Hd & Hi & Hn & Hw).
  exists old. split; [done|]. split; [done|]. simpl.
  rewrite Hc, Hd, Hi, !default_changed.
  split; [done|]. split; [done|]. split; [done|].
  split; [|split].
  - destruct name as [|n]; [by destruct Hn as [-> _]|].
    simpl. case_decide; by destruct Hn as [-> _].
  - destruct name as [|n]; [by destruct Hn as [_ ->]|].
    case_decide; by destruct Hn as [_ ->].
  - destruct Hw as [[-> ->]|(_ & idx & -> & _)].
    + rewrite replace_no_changes. done.
    + simpl. split_and!; [apply lookup_insert_eq | |].
      * intros other Hother. by rewrite lookup_insert_ne.
      * apply dom_insert_lookup_L. by eexists.
Qed.

(** X7. An update that returns has either changed nothing, and then it has
    made no call at all, or it has put a different entry into the entities
    map, and then it has scheduled one save and fired one update event for
    the id, in this order and after the dictionaries were written. *)
Theorem update_calls_iff_changed (w : World) id color description icon name new w' :
  async_update id color description icon name w = (Return new, w') →
  ∃ old,
    labels (self w) !! id = Some old ∧
    ((new = old ∧ w' = w) ∨
     (new ≠ old ∧
      labels (self w') = <[id := new]> (labels (self w)) ∧
      trace w' = trace w ++
        [mkObserved (async_delay_save SAVE_DELAY) (self w');
         mkObserved (async_fire EVENT_LABEL_REGISTRY_UPDATED "update" id) (self w')])).
Proof.
  intros Hrun.
  destruct (async_update_returns _ _ _ _ _ _ _ _ Hrun)
    as (old & changes & Hid & -> & Hc & Hd & Hi & Hn & Hw).
  exists old. split; [done|].
  destruct Hw as [[-> ->]|(Hne & idx & -> & _)].
  - left. by rewrite replace_no_changes.
  - right. split; [|done]. intros Heq. apply Hne.
    destruct changes as [cc cd ci cn cnn]. simpl in *.
    assert (cc = None) as ->.
    { destruct cc as [v|]; [|done]. symmetry in Hc. apply changed_Some in Hc.
      apply (f_equal LabelEntry.color) in Heq. simpl in Heq. congruence. }
    assert (cd = None) as ->.
    { destruct cd as [v|]; [|done]. symmetry in Hd. apply changed_Some in Hd.
      apply (f_equal LabelEntry.description) in Heq. simpl in Heq. congruence. }
    assert (ci = None) as ->.
    { destruct ci as [v|]; [|done]. symmetry in Hi. apply changed_Some in Hi.
      apply (f_equal LabelEntry.icon) in Heq. simpl in Heq. congruence. }
    destruct name as [|n]; [by destruct Hn as [-> ->]|].
    case_decide as Hname; [by destruct Hn as [-> ->]|].
    destruct Hn as [-> ->].
    apply (f_equal LabelEntry.name) in Heq. simpl in Heq. congruence.
Qed.

(** X8. In a valid state, after an accepted rename to a differently
    normalized name the lookup by the new name returns the renamed entity
    and the lookup by any name normalized like the old one returns nothing. *)
Theorem renamed_label_is_found (w : World) id old color description icon n new w' :
  valid (self w) →
  labels (self w) !! id = Some old →
  normalize_label_name n ≠ normalized_name old →
  async_update id color description icon (Given n) w = (Return new, w') →
  async_get_label_by_name n w' = (Return (Some new), w') ∧
  (∀ m, normalize_label_name m = normalized_name old →
     async_get_label_by_name m w' = (Return None, w')).
Proof.
  intros Hv Hid Hnn Hrun. pose proof (valid_invariants _ Hv) as Hinv.
  assert (Hname : n ≠ LabelEntry.name old).
  { intros ->. apply Hnn. symmetry. by eapply valid_normalized. }
  rewrite (async_update_other_name id old) in Hrun by done.
  rewrite decide_True in Hrun by done.
  destruct (_normalized_name_label_idx (self w) !! normalize_label_name n)
    as [other|] eqn:Hidx; [by destruct (labels (self w) !! other)|].
  rewrite renamed_invariants in Hrun by done. injection Hrun as <- <-.
  split.
  - rewrite async_get_label_by_name_run. simpl. by rewrite !lookup_insert_eq.
  - intros m Hm. rewrite async_get_label_by_name_run. simpl.
    rewrite Hm, lookup_insert_ne by done. by rewrite lookup_delete_eq.
Qed.

End Updating.

(** ** Queries *)

Section Queries.
Context `{Runtime}.

(** X9. In a state with the invariants the lookup by name never raises and
    leaves the world as it is; it returns an entity exactly when that entity
    is in the entities map and its normalized name is the normalization of
    the lookup string, and it returns nothing exactly when no entity has that
    normalized name. *)
Theorem lookup_by_name_is_exact (w : World) m :
  invariants (self w) →
  (∃ found, async_get_label_by_name m w = (Return found, w)) ∧
  (∀ e, async_get_label_by_name m w = (Return (Some e), w) ↔
     ∃ id, labels (self w) !! id = Some e ∧
       normalized_name e = normalize_label_name m) ∧
  (async_get_label_by_name m w = (Return None, w) ↔
     ∀ id e, labels (self w) !! id = Some e →
       normalized_name e ≠ normalize_label_name m).
Proof.
  intros Hinv. rewrite async_get_label_by_name_run.
  destruct (_normalized_name_label_idx (self w) !! normalize_label_name m)
    as [id|] eqn:Hidx.
  - destruct (invariants_onto _ _ _ Hinv Hidx) as (e & He & Hne). rewrite He.
    split_and!.
    + by eexists.
    + intros e'. split.
      * intros [= <-]. by exists id.
      * intros (id' & He' & Hne').
        assert (id' = id) as -> by (eapply (inv_unique _ Hinv); [done..|congruence]).
        congruence.
    + split; [done|]. intros Hnone. by destruct (Hnone id e He).
  - split_and!.
    + by eexists.
    + intros e. split; [done|]. intros (id & He & Hne).
      pose proof (inv_index _ Hinv id e He) as Hback. congruence.
    + split; [|done]. intros _ id e He Hne.
      pose proof (inv_index _ Hinv id e He) as Hback. congruence.
Qed.

(** X10. The listing leaves the world as it is and has one element per id:
    an entry is listed exactly when the entities map holds it, and the list
    is as long as the map is large; in a state with the invariants no entry
    is listed twice. *)
Theorem listing_is_exact (w : World) :
  ∃ listed,
    async_list_labels w = (Return listed, w) ∧
    length listed = size (labels (self w)) ∧
    (∀ e, e ∈ listed ↔ ∃ id, labels (self w) !! id = Some e) ∧
    (invariants (self w) → NoDup listed).
Proof.
  eexists. split; [done|]. split_and!.
  - by rewrite length_fmap, length_map_to_list.
  - intros e. rewrite list_elem_of_fmap. split.
    + intros ([id e'] & -> & Hin). exists id. by apply elem_of_map_to_list.
    + intros (id & He). exists (id, e). split; [done|]. by apply elem_of_map_to_list.
  - intros Hinv. apply NoDup_fmap_2_strong; [|apply NoDup_map_to_list].
    intros [id1 e1] [id2 e2] H1 H2 Heq. simpl in Heq. subst e2.
    apply elem_of_map_to_list in H1, H2.
    f_equal. by eapply (inv_unique _ Hinv).
Qed.

(** Both ways [async_get_or_create] ends in a state with the invariants. *)
Lemma async_get_or_create_cases (w : World) name :
  invariants (self w) →
  ∃ label w',
    async_get_or_create name w = (Return label, w') ∧
    normalized_name label = normalize_label_name name ∧
    async_get_label_by_name name w' = (Return (Some label), w') ∧
    ((w' = w ∧ ∃ id, labels (self w) !! id = Some label) ∨
     ((∀ id e, labels (self w) !! id = Some e →
         normalized_name e ≠ normalize_label_name name) ∧
      async_create name None None None w = (Return label, w') ∧
      LabelEntry.name label = name ∧ LabelEntry.color label = None ∧
      LabelEntry.icon label = None ∧ LabelEntry.description label = None)).
Proof.
  intros Hinv. unfold async_get_or_create. unfold mbind, M_bind, bind.
  rewrite async_get_label_by_name_run.
  destruct (_normalized_name_label_idx (self w) !! normalize_label_name name)
    as [id|] eqn:Hidx.
  - destruct (invariants_onto _ _ _ Hinv Hidx) as (e & He & Hne). rewrite He.
    exists e, w. split_and!; [done | done | |].
    + by rewrite async_get_label_by_name_run, Hidx, He.
    + left. split; [done|]. by exists id.
  - destruct (async_create_fresh name None None None w Hidx)
      as (k & _ & _ & _ & Hrun). simpl in Hrun.
    eexists _, _. split; [exact Hrun|]. split; [done|]. split.
    + rewrite async_get_label_by_name_run. simpl. by rewrite !lookup_insert_eq.
    + right. split_and!; try done. intros id e He Hne.
      pose proof (inv_index _ Hinv id e He) as Hback. congruence.
Qed.

(** X11. In a state with the invariants get-or-create never raises.  When an
    entity has the normalization of the name as its normalized name it
    returns that entity and changes nothing; otherwise it returns what a
    create with the default optional fields returns.  Either way the entity
    returned is what a lookup by the name then finds. *)
Theorem get_or_create_returns (w : World) name :
  invariants (self w) →
  ∃ label w',
    async_get_or_create name w = (Return label, w') ∧
    normalized_name label = normalize_label_name name ∧
    async_get_label_by_name name w' = (Return (Some label), w') ∧
    ((w' = w ∧ ∃ id, labels (self w) !! id = Some label) ∨
     ((∀ id e, labels (self w) !! id = Some e →
         normalized_name e ≠ normalize_label_name name) ∧
      async_create name None None None w = (Return label, w') ∧
      LabelEntry.name label = name ∧ LabelEntry.color label = None ∧
      LabelEntry.icon label = None ∧ LabelEntry.description label = None)).
Proof. apply async_get_or_create_cases. Qed.

(** X12. Get-or-create is idempotent: called again with the same name on the
    world it left, it returns the same entity and changes nothing, so no
    second save is scheduled and no second event is fired. *)
Theorem get_or_create_twice (w : World) name label w' :
  invariants (self w) →
  async_get_or_create name w = (Return label, w') →
  async_get_or_create name w' = (Return label, w').
Proof.
  intros Hinv Hrun.
  destruct (async_get_or_create_cases w name Hinv)
    as (label' & w'' & Hrun' & _ & Hfound & _).
  rewrite Hrun in Hrun'. injection Hrun' as <- <-.
  unfold async_get_or_create. unfold mbind, M_bind, bind. by rewrite Hfound.
Qed.

End Queries.

(** ** Sequences of calls *)

Section Sequences.
Context `{Runtime}.

Lemma async_create_world name color icon description w :
  (async_create name color icon description w).2 = w ∨
  ∃ label, (async_create name color icon description w).2 = created w label.
Proof.
  destruct (async_create_cases name color icon description w)
    as [(? & _ & _ & ->)|[(? & _ & _ & ->)|(_ & k & _ & _ & _ & ->)]];
    [by left | by left | right; by eexists].
Qed.

Lemma async_delete_world id w :
  invariants (self w) →
  (async_delete id w).2 = w ∨ ∃ label, (async_delete id w).2 = deleted w id label.
Proof.
  intros Hinv. destruct (labels (self w) !! id) as [label|] eqn:Hid.
  - right. exists label.
    by rewrite (async_delete_present id label) by (eauto using inv_index).
  - left. by rewrite async_delete_absent.
Qed.

Lemma async_update_world id color description icon name w :
  invariants (self w) →
  (async_update id color description icon name w).2 = w ∨
  ∃ new idx, (async_update id color description icon name w).2 = updated w id new idx.
Proof.
  intros Hinv. destruct (labels (self w) !! id) as [old|] eqn:Hid;
    [|left; by rewrite async_update_absent].
  assert (Hsame : keeps (LabelEntry.name old) name →
    (async_update id color description icon name w).2 = w ∨
    ∃ new idx, (async_update id color description icon name w).2 = updated w id new idx).
  { intros Hkeep. rewrite (async_update_same_name id old) by done.
    case_decide; [by left | right; by eexists _, _]. }
  destruct name as [|n]; [by apply Hsame|].
  destruct (decide (n = LabelEntry.name old)) as [Hn|Hn]; [by apply Hsame|].
  rewrite (async_update_other_name id old) by done.
  rewrite renamed_invariants by done.
  case_decide; [|right; by eexists _, _].
  destruct (_normalized_name_label_idx (self w) !! normalize_label_name n)
    as [other|]; [|right; by eexists _, _].
  left. by destruct (labels (self w) !! other).
Qed.

Lemma run_op_world op w :
  (run_op op w).2 =
    match op with
    | Create name color icon description =>
        (async_create name color icon description w).2
    | Update id color description icon name =>
        (async_update id color description icon name w).2
    | Delete id => (async_delete id w).2
    end.
Proof.
  destruct op as [name color icon description|id color description icon name|id];
    simpl; [| |done]; unfold_monad.
  - by destruct (async_create _ _ _ _ w) as [[?| |] ?].
  - by destruct (async_update _ _ _ _ _ w) as [[?| |] ?].
Qed.

Lemma run_op_calls op w :
  invariants (self w) →
  Forall (λ o, invariants (seen o)) (trace w) →
  Forall (λ o, invariants (seen o)) (trace (run_op op w).2).
Proof.
  intros Hinv Htrace. pose proof (run_op_invariants op w Hinv) as Hinv'.
  rewrite run_op_world in *.
  destruct op as [name color icon description|id color description icon name|id].
  - destruct (async_create_world name color icon description w) as [->|[label Hw]];
      [done|]. rewrite Hw in *. simpl in *.
    apply Forall_app. split; [done|].
    repeat (apply Forall_cons; split; [done|]). by apply Forall_nil.
  - destruct (async_update_world id color description icon name w Hinv)
      as [->|(new & idx & Hw)]; [done|]. rewrite Hw in *. simpl in *.
    apply Forall_app. split; [done|].
    repeat (apply Forall_cons; split; [done|]). by apply Forall_nil.
  - destruct (async_delete_world id w Hinv) as [->|[label Hw]]; [done|].
    rewrite Hw in *. simpl in *.
    apply Forall_app. split; [done|].
    repeat (apply Forall_cons; split; [done|]). by apply Forall_nil.
Qed.

(** X13. No collaborator is ever called with the registry half updated.
    Take a state with the invariants in which every call recorded so far saw
    a registry with the invariants (a new registry has recorded none).  Then
    whatever sequence of create, update and delete is run, whether the
    caller goes on after a call that raised ([run_all]) or stops at the
    first one that does ([run_ops]), the registry had the invariants at every
    call made to the store, the event bus and the device and entity
    registries, and it has them at the end. *)
Theorem calls_see_invariants (ops : list Op) :
  ∀ w : World,
    invariants (self w) →
    Forall (λ o, invariants (seen o)) (trace w) →
    (invariants (self (run_all ops w)) ∧
     Forall (λ o, invariants (seen o)) (trace (run_all ops w))) ∧
    Forall (λ o, invariants (seen o)) (trace (run_ops ops w).2).
Proof.
  induction ops as [|op ops IH]; intros w Hinv Htrace; [done|].
  pose proof (run_op_invariants op w Hinv) as Hinv'.
  pose proof (run_op_calls op w Hinv Htrace) as Htrace'.
  destruct (IH (run_op op w).2 Hinv' Htrace') as [Hall Hops].
  split; [exact Hall|].
  simpl. unfold_monad. by destruct (run_op op w) as [[[]| |] w1].
Qed.

(** X14. From a valid state, whatever sequence of create, update and delete
    is run, whether the caller goes on after a call that raised ([run_all])
    or stops at the first one that does ([run_ops]), every entity is filed
    under its own [label_id] and its [normalized_name] is the normalization
    of its [name]. *)
Theorem mutations_keep_entries_consistent (ops : list Op) :
  ∀ w : World,
    valid (self w) →
    (∀ id e, labels (self (run_all ops w)) !! id = Some e →
       label_id e = id ∧
       normalized_name e = normalize_label_name (LabelEntry.name e)) ∧
    (∀ id e, labels (self (run_ops ops w).2) !! id = Some e →
       label_id e = id ∧
       normalized_name e = normalize_label_name (LabelEntry.name e)).
Proof.
  intros w Hv. split.
  - revert w Hv. induction ops as [|op ops IH]; intros w Hv id e He; simpl in He.
    + split; [by eapply valid_key | by eapply valid_normalized].
    + by apply (IH (run_op op w).2 (run_op_valid op w Hv)).
  - intros id e He. pose proof (run_ops_valid ops w Hv) as Hv'.
    split; [by eapply valid_key | by eapply valid_normalized].
Qed.

(** With the candidates up to [m] taken and the next one free, a create
    whose name has the base as its slug gets the next one. *)
Lemma next_candidate base (m : nat) name color icon description w label w' :
  (∀ j : nat, 1 ≤ j ≤ m → candidate base j ∈ dom (labels (self w))) →
  candidate base (S m) ∉ dom (labels (self w)) →
  slugify name = base →
  async_create name color icon description w = (Return label, w') →
  label_id label = candidate base (S m) ∧ w' = created w label.
Proof.
  intros Hbelow Hout Hslug Hrun.
  destruct (async_create_cases name color icon description w)
    as [(? & _ & _ & Hc)|[(? & _ & _ & Hc)|(_ & k & Hk & Hout' & Hbelow' & Hc)]];
    rewrite Hc in Hrun; [done | done |].
  injection Hrun as <- <-. split; [|done]. simpl. rewrite Hslug in *. f_equal.
  destruct (decide (k = S m)) as [|Hne]; [done|]. exfalso.
  destruct (decide (k ≤ m)).
  - apply Hout'. apply Hbelow. lia.
  - apply Hout. apply Hbelow'. lia.
Qed.

(** X15. Names that share a slug get numbered ids: in a registry where the
    candidates [base], [base_2], ..., up to the [m]-th are ids and no later
    one is, creating labels for a list of names that all have the slug
    [base] gives them, in order, the candidates from the [m+1]-th on; with
    [m = 0] these are [base], [base_2], [base_3], ... *)
Theorem colliding_slugs_are_numbered base (names : list string) :
  ∀ (m : nat) (w : World) listed w',
    (∀ j : nat, 1 ≤ j ≤ m → candidate base j ∈ dom (labels (self w))) →
    (∀ k : nat, m < k → candidate base k ∉ dom (labels (self w))) →
    Forall (λ name, slugify name = base) names →
    create_all names w = (Return listed, w') →
    label_id <$> listed = candidate base <$> seq (S m) (length names).
Proof.
  induction names as [|name names IH]; intros m w listed w' Hbelow Hout Hslug Hrun.
  - simpl in Hrun. by injection Hrun as <- <-.
  - apply Forall_cons in Hslug as [Hname Hslug].
    simpl in Hrun. unfold mbind, M_bind, bind in Hrun.
    destruct (async_create name None None None w) as [[label| |] w1] eqn:Hcreate;
      [|done|done].
    destruct (create_all names w1) as [[others| |] w2] eqn:Hrest; [|done|done].
    injection Hrun as <- <-.
    destruct (next_candidate base m name None None None w label w1)
      as [Hid ->]; [done | apply Hout; lia | done | done |].
    csimpl. rewrite Hid. f_equal.
    apply (IH (S m) (created w label) others w2); [| |done|done].
    + intros j Hj. simpl. rewrite dom_insert_L, Hid.
      destruct (decide (j = S m)) as [->|]; [by apply elem_of_union_l, elem_of_singleton|].
      apply elem_of_union_r, Hbelow. lia.
    + intros k Hk. simpl. rewrite dom_insert_L, Hid.
      apply not_elem_of_union. split; [|apply Hout; lia].
      rewrite elem_of_singleton. intros Heq. apply candidate_inj in Heq; lia.
Qed.

End Sequences.

(** ** Loading *)

Section Loading.
Context `{Runtime}.





(** X18. Load does not reset the name index.  With no stored data it empties
    the entities map and leaves the name index as it is, so on a registry with
    the invariants that holds an entity the invariants are lost: the method
    is only fit for a new registry. *)
Theorem load_keeps_old_index (w : World) :
  async_load None w =
    (Return (),
     mkWorld (mkRegistry ∅ (_normalized_name_label_idx (self w))) (trace w)) ∧
  (invariants (self w) → labels (self w) ≠ ∅ →
   ¬ invariants (self (async_load None w).2)).
Proof.
  split; [done|]. intros Hinv Hne [_ Hcard _]. simpl in Hcard.
  rewrite map_size_empty in Hcard. symmetry in Hcard.
  apply map_size_empty_inv in Hcard.
  apply Hne. apply map_size_empty_inv.
  rewrite (inv_card _ Hinv), Hcard. apply map_size_empty.
Qed.

Lemma stored_new_label e :
  stored (new_label (label_id e) (LabelEntry.name e) (LabelEntry.color e)
            (LabelEntry.icon e) (LabelEntry.description e)) = stored e.
Proof. done. Qed.

(** X19. Loading records with pairwise different ids, whose names have
    pairwise different normalizations, into a new registry returns and gives
    a valid registry with one entity per record: each record's entity is
    filed under the record's id with the record's fields and the normalized
    name computed from the name. *)
Theorem load_distinct_records (entries : list LabelEntry) :
  NoDup (label_id <$> entries) →
  NoDup ((λ e, normalize_label_name (LabelEntry.name e)) <$> entries) →
  ∃ r,
    async_load_registry (Some {[ "labels" := stored <$> entries ]})
      = (Return (), mkWorld r []) ∧
    valid r ∧
    size (labels r) = length entries ∧
    ∀ e, e ∈ entries →
      labels r !! label_id e =
        Some (new_label (label_id e) (LabelEntry.name e) (LabelEntry.color e)
                (LabelEntry.icon e) (LabelEntry.description e)).
Proof.
  intros Hids Hnames.
  set (l := (λ e, (label_id e,
               new_label (label_id e) (LabelEntry.name e) (LabelEntry.color e)
                 (LabelEntry.icon e) (LabelEntry.description e))) <$> entries).
  assert (Hl1 : l.*1 = label_id <$> entries).
  { unfold l. rewrite <- list_fmap_compose. by apply list_fmap_ext. }
  assert (Hl2 : ((λ p : string * LabelEntry, (normalized_name p.2, p.1)) <$> l).*1
                = (λ e, normalize_label_name (LabelEntry.name e)) <$> entries).
  { unfold l. rewrite <- !list_fmap_compose. by apply list_fmap_ext. }
  assert (Hstored : stored <$> l.*2 = stored <$> entries).
  { unfold l. rewrite <- !list_fmap_compose. by apply list_fmap_ext. }
  assert (Hlen : length l = length entries) by (unfold l; by rewrite length_fmap).
  exists (mkRegistry (list_to_map l)
            (list_to_map ((λ p : string * LabelEntry, (normalized_name p.2, p.1)) <$> l))).
  assert (Hin : ∀ id e, (list_to_map l : gmap string LabelEntry) !! id = Some e →
    ∃ e0, e0 ∈ entries ∧ id = label_id e0 ∧
      e = new_label (label_id e0) (LabelEntry.name e0) (LabelEntry.color e0)
            (LabelEntry.icon e0) (LabelEntry.description e0)).
  { intros id e He. apply elem_of_list_to_map in He; [|by rewrite Hl1].
    apply list_elem_of_fmap in He as (e0 & [= -> ->] & He0). by exists e0. }
  split_and!.
  - unfold async_load_registry, async_load. unfold_monad.
    rewrite lookup_singleton_eq. cbv beta iota. rewrite <- Hstored.
    rewrite async_load_loop_stored.
    + simpl. rewrite !foldl_insert_union by (by rewrite ?Hl1, ?Hl2).
      by rewrite !(right_id_L ∅ (∪)).
    + intros id e Hl. apply list_elem_of_fmap in Hl as (e0 & [= -> ->] & _). done.
  - split; simpl.
    + apply invariants_intro.
      * intros id e He. apply elem_of_list_to_map; [by rewrite Hl2|].
        apply list_elem_of_fmap. exists (id, e). split; [done|].
        apply elem_of_list_to_map; [by rewrite Hl1 | done].
      * rewrite !map_size_list_to_map by (by rewrite ?Hl1, ?Hl2).
        by rewrite length_fmap.
    + intros id e He. by destruct (Hin id e He) as (e0 & _ & -> & ->).
    + intros id e He. by destruct (Hin id e He) as (e0 & _ & -> & ->).
  - simpl. rewrite map_size_list_to_map by (by rewrite Hl1). done.
  - intros e He. simpl. apply elem_of_list_to_map; [by rewrite Hl1|].
    apply list_elem_of_fmap. by exists e.
Qed.

(** X20. The module-level load and get.  On a [hass.data] without the
    registry key, get raises the [KeyError] of the key and load passes its
    assertion, stores under the key the registry its method has worked on
    (whether that returned or raised) and leaves every other key alone;
    afterwards get returns that registry and a second load fails its
    assertion. *)
Theorem module_load_then_get (hass_data : gmap string World) data :
  hass_data !! DATA_REGISTRY = None →
  async_get hass_data = Raise (KeyError DATA_REGISTRY) ∧
  ∃ outcome registry,
    async_load data fresh = (outcome, registry) ∧
    async_load_module hass_data data
      = Asserted (outcome, <[DATA_REGISTRY := registry]> hass_data) ∧
    async_get (<[DATA_REGISTRY := registry]> hass_data) = Return registry ∧
    (∀ key, key ≠ DATA_REGISTRY →
       (<[DATA_REGISTRY := registry]> hass_data) !! key = hass_data !! key) ∧
    ∀ data', async_load_module (<[DATA_REGISTRY := registry]> hass_data) data'
      = AssertionError.
Proof.
  intros Hkey. split; [unfold async_get; by rewrite Hkey|].
  destruct (async_load data fresh) as [outcome registry] eqn:Hload.
  exists outcome, registry. split_and!; [done | | | |].
  - unfold async_load_module. rewrite decide_False by (by apply not_elem_of_dom).
    unfold fresh in Hload. by rewrite Hload.
  - unfold async_get. by rewrite lookup_insert_eq.
  - intros key Hne. by rewrite lookup_insert_ne.
  - intros data'. unfold async_load_module. rewrite decide_True; [done|].
    apply elem_of_dom. rewrite lookup_insert_eq. by eexists.
Qed.

End Loading.

(** ** Normalization *)

Section Normalization.
Context `{Runtime}.

Lemma str_replace_space_filter s :
  String.list_ascii_of_string (str_replace " " "" s)
    = filter (λ c, c ≠ " "%char) (String.list_ascii_of_string s).
Proof.
  induction s as [|c s IH]; simpl; [done|].
  case_decide as Hc; simpl.
  - subst c. by rewrite filter_cons_False by (intros Hne; by apply Hne).
  - rewrite filter_cons_True by done.
    change ("" +:+ str_replace " " "" s) with (str_replace " " "" s). by rewrite IH.
Qed.

(** X21. Whatever case folding does, the normalized name is the case-folded
    name with the space characters, and only them, taken out: every other
    character, a tab or a line break included, stays, in the same order.  So
    a normalized name holds no space, and two names are normalized alike
    exactly when their case foldings agree once the spaces are dropped. *)
Theorem normalized_name_drops_spaces_only (label_name : string) :
  String.list_ascii_of_string (normalize_label_name label_name)
    = filter (λ c, c ≠ " "%char) (String.list_ascii_of_string (casefold label_name)) ∧
  (" "%char ∉ String.list_ascii_of_string (normalize_label_name label_name)) ∧
  ∀ other,
    normalize_label_name label_name = normalize_label_name other ↔
    filter (λ c, c ≠ " "%char) (String.list_ascii_of_string (casefold label_name))
      = filter (λ c, c ≠ " "%char) (String.list_ascii_of_string (casefold other)).
Proof.
  unfold normalize_label_name. split_and!.
  - apply str_replace_space_filter.
  - rewrite str_replace_space_filter. intros Hin.
    apply list_elem_of_filter in Hin as [Hne _]. by apply Hne.
  - intros other. rewrite <- !str_replace_space_filter. split; [by intros ->|].
    intros Heq. apply (f_equal String.string_of_list_ascii) in Heq.
    by rewrite !String.string_of_list_ascii_of_string in Heq.
Qed.

End Normalization.

(** ** When the mutations go through *)

Section Acceptance.
Context `{Runtime}.

(** X22. In a state with the invariants a create returns exactly when no
    entity has the normalization of the name as its normalized name. *)
Theorem create_returns_iff_name_free (w : World) name color icon description :
  invariants (self w) →
  (∃ label w', async_create name color icon description w = (Return label, w')) ↔
  (∀ id e, labels (self w) !! id = Some e →
     normalized_name e ≠ normalize_label_name name).
Proof.
  intros Hinv. split.
  - intros (label & w' & Hrun) id e He Hne.
    destruct (async_create_returns _ _ _ _ _ _ _ Hrun) as (Hidx & _).
    pose proof (inv_index _ Hinv id e He) as Hback. congruence.
  - intros Hfree.
    destruct (_normalized_name_label_idx (self w) !! normalize_label_name name)
      as [id|] eqn:Hidx.
    + destruct (invariants_onto _ _ _ Hinv Hidx) as (e & He & Hne).
      by destruct (Hfree id e He).
    + destruct (async_create_fresh name color icon description w Hidx)
        as (k & _ & _ & _ & Hrun). by eexists _, _.
Qed.

(** X23. An update that gives no name cannot fail on an existing id,
    whatever the state; it keeps the name and the normalized name of the
    entry and leaves the name index as it is. *)
Theorem update_without_name_returns (w : World) id old color description icon :
  labels (self w) !! id = Some old →
  ∃ new w',
    async_update id color description icon UNDEFINED w = (Return new, w') ∧
    LabelEntry.name new = LabelEntry.name old ∧
    normalized_name new = normalized_name old ∧
    _normalized_name_label_idx (self w') = _normalized_name_label_idx (self w).
Proof.
  intros Hid. rewrite (async_update_same_name id old) by done.
  case_decide; eexists _, _; (split; [done|]); done.
Qed.

End Acceptance.

(** ** The further properties on the examples *)

Section FurtherChecks.
Local Existing Instance ascii_runtime.

Lemma created_label_is_found_witness :
  async_create "Foo" None None None fresh = (Return foo_label, foo_world) ∧
  async_get_label "foo" foo_world = (Return (Some foo_label), foo_world) ∧
  async_get_label_by_name "Foo" foo_world = (Return (Some foo_label), foo_world).
Proof.
  assert (Hrun : async_create "Foo" None None None fresh = (Return foo_label, foo_world))
    by (vm_compute; reflexivity).
  destruct (created_label_is_found fresh "Foo" None None None foo_label foo_world Hrun)
    as (_ & Hget & Hname & _).
  split_and!; [exact Hrun | exact Hget | exact Hname].
Defined.

Lemma create_keeps_other_names_witness :
  invariants (self work_home_world) ∧
  async_create "Foo" None None None work_home_world
    = (Return foo_label, (async_create "Foo" None None None work_home_world).2) ∧
  normalize_label_name "h o m e" ≠ normalize_label_name "Foo" ∧
  (async_get_label_by_name "h o m e"
     (async_create "Foo" None None None work_home_world).2).1
    = (async_get_label_by_name "h o m e" work_home_world).1.
Proof.
  assert (Hinv : invariants (self work_home_world))
    by apply valid_invariants, work_home_world_valid.
  assert (Hrun : async_create "Foo" None None None work_home_world
    = (Return foo_label, (async_create "Foo" None None None work_home_world).2))
    by (vm_compute; reflexivity).
  assert (Hm : normalize_label_name "h o m e" ≠ normalize_label_name "Foo")
    by (vm_compute; discriminate).
  split_and!; [exact Hinv | exact Hrun | exact Hm |].
  exact (create_keeps_other_names work_home_world "Foo" None None None foo_label _
           "h o m e" Hinv Hrun Hm).
Defined.

Lemma delete_keeps_the_others_witness :
  invariants (self work_home_world) ∧
  async_delete "home" work_home_world
    = (Return (), (async_delete "home" work_home_world).2) ∧
  labels (self (async_delete "home" work_home_world).2) !! "work"
    = labels (self work_home_world) !! "work".
Proof.
  assert (Hinv : invariants (self work_home_world))
    by apply valid_invariants, work_home_world_valid.
  assert (Hrun : async_delete "home" work_home_world
    = (Return (), (async_delete "home" work_home_world).2))
    by (vm_compute; reflexivity).
  split_and!; [exact Hinv | exact Hrun |].
  destruct (delete_keeps_the_others work_home_world "home" _ Hinv Hrun)
    as (label & _ & Hothers & _).
  apply Hothers. discriminate.
Defined.

Lemma create_then_delete_restores_witness :
  async_create "Foo" None None None work_home_world
    = (Return foo_label, (async_create "Foo" None None None work_home_world).2) ∧
  ∃ w'',
    async_delete "foo" (async_create "Foo" None None None work_home_world).2
      = (Return (), w'') ∧
    self w'' = self work_home_world.
Proof.
  assert (Hrun : async_create "Foo" None None None work_home_world
    = (Return foo_label, (async_create "Foo" None None None work_home_world).2))
    by (vm_compute; reflexivity).
  split; [exact Hrun|].
  exact (create_then_delete_restores work_home_world "Foo" None None None foo_label _ Hrun).
Defined.

Lemma deleted_id_is_reused_witness :
  let w1 := (async_delete "home" work_home_world).2 in
  let label := new_label "home" "HOME!" None None None in
  async_delete "home" work_home_world = (Return (), w1) ∧
  slugify "HOME!" = "home" ∧
  async_create "HOME!" None None None w1
    = (Return label, (async_create "HOME!" None None None w1).2) ∧
  label_id label = "home".
Proof.
  intros w1 label.
  assert (Hdel : async_delete "home" work_home_world = (Return (), w1))
    by (vm_compute; reflexivity).
  assert (Hslug : slugify "HOME!" = "home") by (vm_compute; reflexivity).
  assert (Hrun : async_create "HOME!" None None None w1
    = (Return label, (async_create "HOME!" None None None w1).2))
    by (vm_compute; reflexivity).
  split_and!; [exact Hdel | exact Hslug | exact Hrun |].
  exact (deleted_id_is_reused work_home_world "home" w1 "HOME!" None None None
           label _ Hdel Hslug Hrun).
Defined.

Lemma update_sets_given_fields_witness :
  let new := new_label "work" "Work" (Some "#fff") None None in
  let w' := (async_update "work" (Given (Some "#fff")) UNDEFINED UNDEFINED UNDEFINED
               work_home_world).2 in
  async_update "work" (Given (Some "#fff")) UNDEFINED UNDEFINED UNDEFINED work_home_world
    = (Return new, w') ∧
  ∃ old,
    labels (self work_home_world) !! "work" = Some old ∧
    label_id new = label_id old ∧
    color new = applied (color old) (Given (Some "#fff")) ∧
    name new = applied (name old) UNDEFINED ∧
    labels (self w') !! "work" = Some new.
Proof.
  intros new w'.
  assert (Hrun : async_update "work" (Given (Some "#fff")) UNDEFINED UNDEFINED UNDEFINED
                   work_home_world = (Return new, w')) by (vm_compute; reflexivity).
  split; [exact Hrun|].
  destruct (update_sets_given_fields work_home_world "work" (Given (Some "#fff"))
              UNDEFINED UNDEFINED UNDEFINED new w' Hrun)
    as (old & Hid & Hlid & Hcolor & _ & _ & Hname & _ & Hnew & _).
  exists old. split_and!; [exact Hid | exact Hlid | exact Hcolor | exact Hname | exact Hnew].
Defined.

Lemma update_calls_iff_changed_witness :
  let new := new_label "work" "Work" (Some "#fff") None None in
  let w' := (async_update "work" (Given (Some "#fff")) UNDEFINED UNDEFINED UNDEFINED
               work_home_world).2 in
  async_update "work" (Given (Some "#fff")) UNDEFINED UNDEFINED UNDEFINED work_home_world
    = (Return new, w') ∧
  ∃ old,
    labels (self work_home_world) !! "work" = Some old ∧
    ((new = old ∧ w' = work_home_world) ∨
     (new ≠ old ∧
      labels (self w') = <["work" := new]> (labels (self work_home_world)) ∧
      trace w' = trace work_home_world ++
        [mkObserved (async_delay_save SAVE_DELAY) (self w');
         mkObserved (async_fire EVENT_LABEL_REGISTRY_UPDATED "update" "work") (self w')])).
Proof.
  intros new w'.
  assert (Hrun : async_update "work" (Given (Some "#fff")) UNDEFINED UNDEFINED UNDEFINED
                   work_home_world = (Return new, w')) by (vm_compute; reflexivity).
  split; [exact Hrun|].
  exact (update_calls_iff_changed work_home_world "work" (Given (Some "#fff"))
           UNDEFINED UNDEFINED UNDEFINED new w' Hrun).
Defined.

Lemma renamed_label_is_found_witness :
  let new := new_label "work" "Office" None None None in
  let w' := (async_update "work" UNDEFINED UNDEFINED UNDEFINED (Given "Office")
               work_home_world).2 in
  valid (self work_home_world) ∧
  labels (self work_home_world) !! "work" = Some work_label ∧
  normalize_label_name "Office" ≠ normalized_name work_label ∧
  async_update "work" UNDEFINED UNDEFINED UNDEFINED (Given "Office") work_home_world
    = (Return new, w') ∧
  async_get_label_by_name "Office" w' = (Return (Some new), w') ∧
  async_get_label_by_name "WORK" w' = (Return None, w').
Proof.
  intros new w'.
  assert (Hv : valid (self work_home_world)) by apply work_home_world_valid.
  assert (Hid : labels (self work_home_world) !! "work" = Some work_label)
    by (vm_compute; reflexivity).
  assert (Hnn : normalize_label_name "Office" ≠ normalized_name work_label)
    by (vm_compute; discriminate).
  assert (Hrun : async_update "work" UNDEFINED UNDEFINED UNDEFINED (Given "Office")
                   work_home_world = (Return new, w')) by (vm_compute; reflexivity).
  destruct (renamed_label_is_found work_home_world "work" work_label
              UNDEFINED UNDEFINED UNDEFINED "Office" new w' Hv Hid Hnn Hrun)
    as [Hnew Hold].
  split_and!; [exact Hv | exact Hid | exact Hnn | exact Hrun | exact Hnew |].
  apply Hold. vm_compute. reflexivity.
Defined.

Lemma lookup_by_name_is_exact_witness :
  invariants (self work_home_world) ∧
  (async_get_label_by_name "H O M E" work_home_world
     = (Return (Some home_label), work_home_world) ↔
   ∃ id, labels (self work_home_world) !! id = Some home_label ∧
     normalized_name home_label = normalize_label_name "H O M E").
Proof.
  assert (Hinv : invariants (self work_home_world))
    by apply valid_invariants, work_home_world_valid.
  split; [exact Hinv|].
  destruct (lookup_by_name_is_exact work_home_world "H O M E" Hinv) as (_ & Hsome & _).
  exact (Hsome home_label).
Defined.

Lemma listing_is_exact_witness :
  invariants (self work_home_world) ∧
  ∃ listed,
    async_list_labels work_home_world = (Return listed, work_home_world) ∧
    length listed = 2 ∧ NoDup listed.
Proof.
  assert (Hinv : invariants (self work_home_world))
    by apply valid_invariants, work_home_world_valid.
  split; [exact Hinv|].
  destruct (listing_is_exact work_home_world) as (listed & Hrun & Hlen & _ & Hnodup).
  exists listed. split_and!; [exact Hrun | exact Hlen | exact (Hnodup Hinv)].
Defined.

Lemma get_or_create_returns_witness :
  invariants (self work_home_world) ∧
  ∃ label w',
    async_get_or_create "HOME" work_home_world = (Return label, w') ∧
    normalized_name label = normalize_label_name "HOME" ∧
    async_get_label_by_name "HOME" w' = (Return (Some label), w').
Proof.
  assert (Hinv : invariants (self work_home_world))
    by apply valid_invariants, work_home_world_valid.
  split; [exact Hinv|].
  destruct (get_or_create_returns work_home_world "HOME" Hinv)
    as (label & w' & Hrun & Hn & Hfound & _).
  exists label, w'. split_and!; [exact Hrun | exact Hn | exact Hfound].
Defined.

Lemma get_or_create_twice_witness :
  invariants (self fresh) ∧
  async_get_or_create "Foo" fresh = (Return foo_label, foo_world) ∧
  async_get_or_create "Foo" foo_world = (Return foo_label, foo_world).
Proof.
  assert (Hinv : invariants (self fresh)) by apply invariants_init.
  assert (Hrun : async_get_or_create "Foo" fresh = (Return foo_label, foo_world))
    by (vm_compute; reflexivity).
  split_and!; [exact Hinv | exact Hrun |].
  exact (get_or_create_twice fresh "Foo" foo_label foo_world Hinv Hrun).
Defined.

Lemma calls_see_invariants_witness :
  let ops := Delete "garden" :: Create "Work" None None None
               :: Create "WORK" None None None :: example_ops in
  invariants (self fresh) ∧
  Forall (λ o, invariants (seen o)) (trace fresh) ∧
  (run_op (Delete "garden") fresh).1 = Raise (KeyError "garden") ∧
  length (trace (run_all ops fresh)) = 12 ∧
  invariants (self (run_all ops fresh)) ∧
  Forall (λ o, invariants (seen o)) (trace (run_all ops fresh)).
Proof.
  intros ops.
  assert (Hinv : invariants (self fresh)) by apply invariants_init.
  assert (Htrace : Forall (λ o, invariants (seen o)) (trace fresh))
    by apply Forall_nil_2.
  destruct (calls_see_invariants ops fresh Hinv Htrace) as [[Hend Hcalls] _].
  split_and!; [exact Hinv | exact Htrace | vm_compute; reflexivity
              | vm_compute; reflexivity | exact Hend | exact Hcalls].
Defined.

Lemma mutations_keep_entries_consistent_witness :
  let ops := Delete "garden" :: Create "Work" None None None
               :: Create "WORK" None None None :: example_ops in
  valid (self fresh) ∧
  (run_op (Delete "garden") fresh).1 = Raise (KeyError "garden") ∧
  size (labels (self (run_all ops fresh))) = 2 ∧
  ∀ id e, labels (self (run_all ops fresh)) !! id = Some e →
    label_id e = id ∧ normalized_name e = normalize_label_name (name e).
Proof.
  intros ops.
  assert (Hv : valid (self fresh)) by apply valid_init.
  split_and!; [exact Hv | vm_compute; reflexivity | vm_compute; reflexivity |].
  exact (proj1 (mutations_keep_entries_consistent ops fresh Hv)).
Defined.

Lemma colliding_slugs_are_numbered_witness :
  let names := ["Foo"; "Foo!"; "-foo-"] in
  (∀ j : nat, 1 ≤ j ≤ 0 → candidate "foo" j ∈ dom (labels (self fresh))) ∧
  (∀ k : nat, 0 < k → candidate "foo" k ∉ dom (labels (self fresh))) ∧
  Forall (λ name, slugify name = "foo") names ∧
  ∃ created w',
    create_all names fresh = (Return created, w') ∧
    label_id <$> created = ["foo"; "foo_2"; "foo_3"].
Proof.
  intros names.
  assert (Hbelow : ∀ j : nat, 1 ≤ j ≤ 0 → candidate "foo" j ∈ dom (labels (self fresh)))
    by (intros j Hj; lia).
  assert (Hout : ∀ k : nat, 0 < k → candidate "foo" k ∉ dom (labels (self fresh))).
  { intros k _. simpl. rewrite dom_empty_L. apply not_elem_of_empty. }
  assert (Hslug : Forall (λ name, slugify name = "foo") names).
  { repeat (apply Forall_cons_2; [vm_compute; reflexivity|]). apply Forall_nil_2. }
  split_and!; [exact Hbelow | exact Hout | exact Hslug |].
  destruct (create_all names fresh) as [[created| |] w'] eqn:Hrun;
    [| vm_compute in Hrun; discriminate | vm_compute in Hrun; discriminate].
  exists created, w'. split; [reflexivity|].
  exact (colliding_slugs_are_numbered "foo" names 0 fresh created w'
           Hbelow Hout Hslug Hrun).
Defined.



Lemma load_keeps_old_index_witness :
  invariants (self work_home_world) ∧
  labels (self work_home_world) ≠ ∅ ∧
  ¬ invariants (self (async_load None work_home_world).2).
Proof.
  assert (Hinv : invariants (self work_home_world))
    by apply valid_invariants, work_home_world_valid.
  assert (Hne : labels (self work_home_world) ≠ ∅).
  { intros Hempty. apply (f_equal (λ m : gmap string LabelEntry, m !! "work")) in Hempty.
    vm_compute in Hempty. discriminate. }
  split_and!; [exact Hinv | exact Hne |].
  exact (proj2 (load_keeps_old_index work_home_world) Hinv Hne).
Defined.

Lemma load_distinct_records_witness :
  NoDup (label_id <$> [work_label; home_label]) ∧
  NoDup ((λ e, normalize_label_name (name e)) <$> [work_label; home_label]) ∧
  ∃ r,
    async_load_registry (Some {[ "labels" := stored <$> [work_label; home_label] ]})
      = (Return (), mkWorld r []) ∧
    valid r ∧ size (labels r) = 2.
Proof.
  assert (Hids : NoDup (label_id <$> [work_label; home_label])).
  { apply NoDup_cons_2; [|apply NoDup_singleton].
    intros Hin. apply list_elem_of_singleton in Hin. vm_compute in Hin. discriminate. }
  assert (Hnames :
    NoDup ((λ e, normalize_label_name (name e)) <$> [work_label; home_label])).
  { apply NoDup_cons_2; [|apply NoDup_singleton].
    intros Hin. apply list_elem_of_singleton in Hin. vm_compute in Hin. discriminate. }
  split_and!; [exact Hids | exact Hnames |].
  destruct (load_distinct_records [work_label; home_label] Hids Hnames)
    as (r & Hrun & Hv & Hsize & _).
  exists r. split_and!; [exact Hrun | exact Hv | exact Hsize].
Defined.

Lemma module_load_then_get_witness :
  (∅ : gmap string World) !! DATA_REGISTRY = None ∧
  async_get (∅ : gmap string World) = Raise (KeyError DATA_REGISTRY) ∧
  ∃ outcome registry,
    async_load_module ∅ None = Asserted (outcome, <[DATA_REGISTRY := registry]> ∅) ∧
    async_get (<[DATA_REGISTRY := registry]> ∅) = Return registry ∧
    async_load_module (<[DATA_REGISTRY := registry]> ∅) None = AssertionError.
Proof.
  assert (Hkey : (∅ : gmap string World) !! DATA_REGISTRY = None) by reflexivity.
  destruct (module_load_then_get ∅ None Hkey)
    as (Hget & outcome & registry & _ & Hload & Hget' & _ & Hagain).
  split_and!; [exact Hkey | exact Hget |].
  exists outcome, registry. split_and!; [exact Hload | exact Hget' | exact (Hagain None)].
Defined.

Lemma create_returns_iff_name_free_witness :
  invariants (self work_home_world) ∧
  ((∃ label w', async_create "Garden" None None None work_home_world = (Return label, w'))
   ↔ (∀ id e, labels (self work_home_world) !! id = Some e →
        normalized_name e ≠ normalize_label_name "Garden")).
Proof.
  assert (Hinv : invariants (self work_home_world))
    by apply valid_invariants, work_home_world_valid.
  split; [exact Hinv|].
  exact (create_returns_iff_name_free work_home_world "Garden" None None None Hinv).
Defined.

Lemma update_without_name_returns_witness :
  labels (self work_home_world) !! "home" = Some home_label ∧
  ∃ new w',
    async_update "home" (Given None) UNDEFINED (Given (Some "mdi:home")) UNDEFINED
      work_home_world = (Return new, w') ∧
    name new = name home_label ∧
    normalized_name new = normalized_name home_label ∧
    _normalized_name_label_idx (self w') = _normalized_name_label_idx (self work_home_world).
Proof.
  assert (Hid : labels (self work_home_world) !! "home" = Some home_label)
    by (vm_compute; reflexivity).
  split; [exact Hid|].
  exact (update_without_name_returns work_home_world "home" home_label
           (Given None) UNDEFINED (Given (Some "mdi:home")) Hid).
Defined.

End FurtherChecks.
